(** * js-clients: the tiny GraphQL query compiler and the action runner

    A shallow embedding of
    - [packages/tiny-graphql-query-compiler/src/index.ts]
      ([compileFieldSelection], [extractVariables], [compileVariables],
      [compile], [compileWithVariableValues]), and
    - the [useAction] hook of the React bindings (the variables guard, the
      flat-to-nested mapping of variables and [processResult]).

    Conventions of the embedding.
    - A JavaScript object used as a string-keyed record is an association
      list in the order [Object.entries] enumerates it; its keys are
      pairwise distinct.  Property names are ordinary names: they are not
      canonical array indices (which JavaScript enumerates first) and not
      members of [Object.prototype].  The record [variables] of
      [extractVariables] is the exception: what it inherits is modelled,
      since [nextName] reads it ([lookupTruthy]).
    - A thrown exception is a value of the sum type [Exc].
    - JavaScript numbers that occur in the embedded data are integers. *)

From Stdlib Require Import String Ascii List Bool Arith ZArith Lia.
From Stdlib Require Import DecimalString DecimalNat FinFun.
Import ListNotations.

Set Warnings "-register-all".

Local Open Scope list_scope.
Local Open Scope string_scope.

(* ------------------------------------------------------------------ *)
(** ** Exceptions *)

Inductive JSError : Type :=
| TypeError (message : string)
| Error (message : string).

Inductive Exc (A : Type) : Type :=
| Return (a : A)
| Throw (e : JSError).

Arguments Return {A} a.
Arguments Throw {A} e.

Definition bindExc {A B : Type} (m : Exc A) (k : A -> Exc B) : Exc B :=
  match m with
  | Return a => k a
  | Throw e => Throw e
  end.

Notation "x <- m ;; k" := (bindExc m (fun x => k))
  (at level 61, m at next level, right associativity).

Definition returns {A : Type} (m : Exc A) : bool :=
  match m with Return _ => true | Throw _ => false end.

(* ------------------------------------------------------------------ *)
(** ** JavaScript records as ordered association lists *)

Module Obj.
Section Ops.
Context {V : Type}.

Definition t : Type := list (string * V).

(** [o[k]], [undefined] being [None]. *)
Fixpoint get (k : string) (o : t) : option V :=
  match o with
  | [] => None
  | (k', v) :: rest => if String.eqb k k' then Some v else get k rest
  end.

(** [k in o]. *)
Definition has (k : string) (o : t) : bool :=
  match get k o with Some _ => true | None => false end.

(** [o[k] = v]: an existing key keeps its place, a new one goes last. *)
Fixpoint set (k : string) (v : V) (o : t) : t :=
  match o with
  | [] => [(k, v)]
  | (k', v') :: rest =>
      if String.eqb k k' then (k', v) :: rest else (k', v') :: set k v rest
  end.

(** [delete o[k]]. *)
Fixpoint delete (k : string) (o : t) : t :=
  match o with
  | [] => []
  | (k', v') :: rest =>
      if String.eqb k k' then rest else (k', v') :: delete k rest
  end.

(** [Object.keys(o)]. *)
Definition keys (o : t) : list string := map fst o.

(** [Object.assign(target, source)]. *)
Definition assign (target source : t) : t :=
  fold_left (fun acc kv => set (fst kv) (snd kv) acc) source target.
End Ops.
Arguments t V : clear implicits.
End Obj.

(* ------------------------------------------------------------------ *)
(** ** JavaScript values *)

Inductive JSValue : Type :=
| JUndefined
| JNull
| JBool (b : bool)
| JNum (n : Z)
| JStr (s : string)
| JArr (items : list JSValue)
| JObj (props : list (string * JSValue)).

(** [v == null]. *)
Definition isNullish (v : JSValue) : bool :=
  match v with
  | JUndefined | JNull => true
  | _ => false
  end.

(** [!!v]. *)
Definition truthy (v : JSValue) : bool :=
  match v with
  | JUndefined | JNull => false
  | JBool b => b
  | JNum n => negb (Z.eqb n 0)
  | JStr s => negb (String.eqb s "")
  | JArr _ | JObj _ => true
  end.

(** [typeof v === "object" && v !== null]. *)
Definition isObject (v : JSValue) : bool :=
  match v with
  | JArr _ | JObj _ => true
  | _ => false
  end.

(** Decimal rendering of a count, as a template literal prints it. *)
Definition showNat (n : nat) : string :=
  NilEmpty.string_of_uint (Nat.to_uint n).

Definition showZ (z : Z) : string :=
  NilZero.string_of_int (Z.to_int z).

(** [items.join(sep)]. *)
Definition join (sep : string) (items : list string) : string :=
  String.concat sep items.

(** *** [JSON.stringify] *)

Definition hexDigit (n : nat) : ascii :=
  match n with
  | 0 => "0" | 1 => "1" | 2 => "2" | 3 => "3" | 4 => "4"
  | 5 => "5" | 6 => "6" | 7 => "7" | 8 => "8" | 9 => "9"
  | 10 => "a" | 11 => "b" | 12 => "c" | 13 => "d" | 14 => "e"
  | _ => "f"
  end%char.

Definition dquote : ascii := ascii_of_nat 34.
Definition backslash : ascii := ascii_of_nat 92.

Definition quoteChar (c : ascii) : string :=
  let n := nat_of_ascii c in
  if Nat.eqb n 34 then String backslash (String dquote "")
  else if Nat.eqb n 92 then String backslash (String backslash "")
  else if Nat.eqb n 8 then "\b"
  else if Nat.eqb n 12 then "\f"
  else if Nat.eqb n 10 then "\n"
  else if Nat.eqb n 13 then "\r"
  else if Nat.eqb n 9 then "\t"
  else if Nat.ltb n 32 then
    "\u00" ++ String (hexDigit (n / 16)) (String (hexDigit (n mod 16)) "")
  else String c "".

Fixpoint quoteChars (s : string) : string :=
  match s with
  | EmptyString => ""
  | String c rest => quoteChar c ++ quoteChars rest
  end.

Definition quoteJSONString (s : string) : string :=
  String dquote (quoteChars s ++ String dquote "").

(** [JSON.stringify(v)]; [None] is the [undefined] it returns for
    [undefined].  Inside an array [undefined] prints as [null], inside an
    object the property is skipped. *)
Fixpoint JSON_stringify (v : JSValue) : option string :=
  match v with
  | JUndefined => None
  | JNull => Some "null"
  | JBool true => Some "true"
  | JBool false => Some "false"
  | JNum n => Some (showZ n)
  | JStr s => Some (quoteJSONString s)
  | JArr items =>
      let cells :=
        map (fun item =>
               match JSON_stringify item with
               | Some s => s
               | None => "null"
               end) items in
      Some ("[" ++ join "," cells ++ "]")
  | JObj props =>
      let cells :=
        (fix members (ps : list (string * JSValue)) : list string :=
           match ps with
           | [] => []
           | (k, x) :: rest =>
               match JSON_stringify x with
               | Some s => (quoteJSONString k ++ ":" ++ s) :: members rest
               | None => members rest
               end
           end) props in
      Some ("{" ++ join "," cells ++ "}")
  end.

(** A value interpolated into a template literal. *)
Definition interpolate (s : option string) : string :=
  match s with
  | Some s => s
  | None => "undefined"
  end.

(* ------------------------------------------------------------------ *)
(** ** The selection model of [tiny-graphql-query-compiler] *)

(** [class Variable]: one reference to a variable somewhere in a
    selection.  ([Variable] is a command of Rocq, hence the name of the
    record.) *)
Record GqlVariable : Type := newVariable {
  var_type : string;
  var_name : option string;
  var_value : JSValue
}.

(** [Variable.present()]. *)
Definition present (v : GqlVariable) : bool :=
  negb (isNullish (var_value v)).

(** The value of one argument of a field call: a [Variable] instance or
    any other value. *)
Inductive ArgValue : Type :=
| ArgVar (v : GqlVariable)
| ArgLit (j : JSValue).

(** [interface FieldSelection] and [class FieldCall]: what a field name
    maps to. *)
Inductive FieldValue : Type :=
| FBool (b : bool)
| FNull
| FUndefined
| FCall (args : list (string * ArgValue))
        (subselection : option (list (string * FieldValue)))
| FSelection (fields : list (string * FieldValue)).

Definition FieldSelection : Type := list (string * FieldValue).

Inductive OperationType : Type := query | subscription | mutation.

Definition showOperationType (t : OperationType) : string :=
  match t with
  | query => "query"
  | subscription => "subscription"
  | mutation => "mutation"
  end.

Record BuilderOperation : Type := {
  op_type : OperationType;
  op_fields : FieldSelection;
  op_name : option string;
  op_directives : option (list string)
}.

Record VariableOptions : Type := {
  opt_type : string;
  opt_name : option string;
  opt_value : JSValue
}.

(** [Call(args, subselection)]. *)
Definition Call (args : list (string * ArgValue))
    (subselection : option FieldSelection) : FieldValue :=
  FCall args subselection.

(** [Var(options)]. *)
Definition Var (options : VariableOptions) : GqlVariable :=
  newVariable (opt_type options) (opt_name options) (opt_value options).

(** [a ?? b] on an optional string. *)
Definition orElse (a : option string) (b : string) : string :=
  match a with
  | Some s => s
  | None => b
  end.

Definition newline : string := String (ascii_of_nat 10) "".

(* ------------------------------------------------------------------ *)
(** ** [compileFieldSelection]

    Line numbers are those of
    [packages/tiny-graphql-query-compiler/src/index.ts]. *)

Section FlatMap.
Context {A B : Type} (f : A -> Exc (list B)).

(** [items.flatMap(f)] for a callback that may throw. *)
Fixpoint flatMapExc (items : list A) : Exc (list B) :=
  match items with
  | [] => Return []
  | a :: rest =>
      x <- f a ;;
      y <- flatMapExc rest ;;
      Return (List.app x y)
  end.
End FlatMap.

(** [value !== null && value !== undefined] on an argument value. *)
Definition argDefined (value : ArgValue) : bool :=
  match value with
  | ArgVar _ => true
  | ArgLit j => negb (isNullish j)
  end.

(** [value instanceof Variable ? value.present() : true]. *)
Definition argPresent (value : ArgValue) : bool :=
  match value with
  | ArgVar v => present v
  | ArgLit _ => true
  end.

(** The entries of [value.args] that are rendered (lines 19 to 23). *)
Definition argEntries (only : bool) (args : list (string * ArgValue))
    : list (string * ArgValue) :=
  let entries := filter (fun entry => argDefined (snd entry)) args in
  if only then filter (fun entry => argPresent (snd entry)) entries
  else entries.

(** One rendered argument (line 26). *)
Definition argSignature (entry : string * ArgValue) : string :=
  let (name, value) := entry in
  name ++ ": " ++
  match value with
  | ArgVar v => "$" ++ orElse (var_name v) name
  | ArgLit j => interpolate (JSON_stringify j)
  end.

(** The [signatures] array of a field call. *)
Definition argSignatures (only : bool) (args : list (string * ArgValue))
    : list string :=
  map argSignature (argEntries only args).

(** The [args] string of a field call (lines 18 and 28 to 30). *)
Definition renderArgs (only : bool) (args : list (string * ArgValue))
    : string :=
  let signatures := argSignatures only args in
  if Nat.ltb 0 (List.length signatures)
  then "(" ++ join ", " signatures ++ ")"
  else "".

(** [.filter((value) => !!value)]: a cell is [false] ([None]) or a
    string, and the empty string is falsy too. *)
Fixpoint keepTruthy (cells : list (option string)) : list string :=
  match cells with
  | [] => []
  | None :: rest => keepTruthy rest
  | Some s :: rest =>
      if String.eqb s "" then keepTruthy rest else s :: keepTruthy rest
  end.

(** [.filter((value) => !!value).map((line) => "  " + line)]. *)
Definition indentLines (cells : list (option string)) : list string :=
  map (fun line => "  " ++ line) (keepTruthy cells).

Definition nullToObject : JSError :=
  TypeError "Cannot convert undefined or null to object".

(** The callback of the [flatMap] of [compileFieldSelection], applied to
    one entry [[field, value]].  The recursive calls of
    [compileFieldSelection] are the inner [flatMapExc ... indentLines]. *)
Fixpoint compileEntry (only : bool) (field : string) (value : FieldValue)
    {struct value} : Exc (list (option string)) :=
  match value with
  | FBool b => Return [if b then Some field else None]
  | FCall args subselection =>
      let args := renderArgs only args in
      match subselection with
      | Some sub =>
          lines <- (cells <- flatMapExc
                      (fun entry => compileEntry only (fst entry) (snd entry))
                      sub ;;
                    Return (indentLines cells)) ;;
          Return (Some (field ++ args ++ " {")
                    :: List.app (map Some lines) [Some "}"])
      | None => Return [Some (field ++ args)]
      end
  | FSelection fields =>
      lines <- (cells <- flatMapExc
                  (fun entry => compileEntry only (fst entry) (snd entry))
                  fields ;;
                Return (indentLines cells)) ;;
      Return (Some (field ++ " {") :: List.app (map Some lines) [Some "}"])
  | FNull | FUndefined =>
      (* [Object.entries(null)] and [Object.entries(undefined)] throw *)
      Throw nullToObject
  end.

Definition compileFieldSelection (fields : FieldSelection) (only : bool)
    : Exc (list string) :=
  cells <- flatMapExc
             (fun entry => compileEntry only (fst entry) (snd entry))
             fields ;;
  Return (indentLines cells).

(* ------------------------------------------------------------------ *)
(** ** [extractVariables] *)

(** *** The record [variables] and what it inherits

    [variables] starts as [{}], so its prototype is [Object.prototype].
    The lookup [variables[name]] of [nextName] (lines 49 and 50) reads
    through the prototype chain, and the assignment of line 62 under the
    key [__proto__] runs the setter that [Object.prototype] has for it:
    the [Variable] assigned becomes the prototype of the record, and the
    record gets no key.

    In the embedding the entry of the association list under [__proto__],
    if there is one, is that prototype.  The other entries are the own
    properties of the record, which is all that [Object.entries],
    [Object.keys], [Object.assign] and [delete] see. *)

Definition protoKey : string := "__proto__".

(** The own properties of the record. *)
Definition ownEntries (variables : Obj.t GqlVariable) : Obj.t GqlVariable :=
  filter (fun entry => negb (String.eqb (fst entry) protoKey)) variables.

(** The properties of [Object.prototype].  Each of them is a function,
    apart from [__proto__], which reads as the prototype of the object:
    all are truthy. *)
Definition objectPrototypeNames : list string :=
  ["constructor"; "__defineGetter__"; "__defineSetter__"; "hasOwnProperty";
   "__lookupGetter__"; "__lookupSetter__"; "isPrototypeOf";
   "propertyIsEnumerable"; "toString"; "valueOf"; "__proto__";
   "toLocaleString"].

Definition inObjectPrototype (name : string) : bool :=
  existsb (String.eqb name) objectPrototypeNames.

(** [!!v[name]] for a [Variable] instance [v]: its own properties [type],
    [name] and [value], then [present] and [constructor] of the class,
    then [Object.prototype]. *)
Definition variableGives (v : GqlVariable) (name : string) : bool :=
  if String.eqb name "type" then negb (String.eqb (var_type v) "")
  else if String.eqb name "name" then
    match var_name v with
    | Some explicit => negb (String.eqb explicit "")
    | None => false
    end
  else if String.eqb name "value" then truthy (var_value v)
  else String.eqb name "present" || inObjectPrototype name.

(** [!!variables[name]]: an own property is a [Variable], an object;
    [__proto__] reads as the prototype, an object too; any other name is
    looked up in the prototype. *)
Definition lookupTruthy (variables : Obj.t GqlVariable) (name : string)
    : bool :=
  if String.eqb name protoKey then true
  else if Obj.has name variables then true
  else
    match Obj.get protoKey variables with
    | Some v => variableGives v name
    | None => inObjectPrototype name
    end.

(** The names under which a lookup can find something that the record
    does not own. *)
Definition inheritedNames : list string :=
  "type" :: "name" :: "value" :: "present" :: objectPrototypeNames.

(** *** [nextName] *)

(** The [while] loop of [nextName]: the first count from [count] on under
    whose suffixed name the record gives nothing.  [fuel] bounds the
    iterations; the loop stops within one iteration more than the record
    has entries and inherited names ([some_count_free]). *)
Fixpoint nextCount (fuel : nat) (variables : Obj.t GqlVariable)
    (name : string) (count : nat) : nat :=
  match fuel with
  | 0 => count
  | S fuel' =>
      if lookupTruthy variables (name ++ showNat count)
      then nextCount fuel' variables name (S count)
      else count
  end.

Definition nextName (variables : Obj.t GqlVariable) (name : string)
    : string :=
  if lookupTruthy variables name
  then name ++ showNat
                 (nextCount
                    (S (List.length variables + List.length inheritedNames))
                    variables name 1)
  else name.

(** The inner [forEach] over [value.args] (lines 60 to 64).  An explicit
    name [__proto__] makes the assignment replace the prototype. *)
Definition extractArg (variables : Obj.t GqlVariable)
    (entry : string * ArgValue) : Obj.t GqlVariable :=
  let (name, value) := entry in
  match value with
  | ArgVar v =>
      Obj.set (match var_name v with
               | Some explicit => explicit
               | None => nextName variables name
               end) v variables
  | ArgLit _ => variables
  end.

(** The callback of the outer [forEach] (lines 58 to 68); the recursive
    call [extractVariables(value)] runs with the flag at its default,
    [false], so it is the bare fold over a record of its own, of which
    [Object.assign] copies the own properties. *)
Fixpoint extractEntry (variables : Obj.t GqlVariable) (value : FieldValue)
    {struct value} : Obj.t GqlVariable :=
  match value with
  | FCall args _ => fold_left extractArg args variables
  | FSelection fields =>
      Obj.assign variables
        (ownEntries
           (fold_left (fun vars entry => extractEntry vars (snd entry))
              fields []))
  | FBool _ | FNull | FUndefined => variables
  end.

(** Lines 70 to 76: drop every variable whose value is [null] or
    [undefined]; the loop runs over a snapshot of the entries. *)
Definition dropAbsent (variables : Obj.t GqlVariable) : Obj.t GqlVariable :=
  fold_left
    (fun vars entry =>
       if isNullish (var_value (snd entry))
       then Obj.delete (fst entry) vars
       else vars)
    variables variables.

(** The result is the record as its callers read it, with
    [Object.entries] and [Object.keys]: its own properties. *)
Definition extractVariables (fields : FieldSelection) (only : bool)
    : Obj.t GqlVariable :=
  let variables :=
    ownEntries
      (fold_left (fun vars entry => extractEntry vars (snd entry)) fields [])
  in
  if only then dropAbsent variables else variables.

(* ------------------------------------------------------------------ *)
(** ** [compileVariables], [compile], [compileWithVariableValues] *)

Definition variableSignature (entry : string * GqlVariable) : string :=
  "$" ++ fst entry ++ ": " ++ var_type (snd entry).

Definition compileVariables (operation : BuilderOperation) (only : bool)
    : string :=
  let variables := extractVariables (op_fields operation) only in
  if Nat.eqb (List.length (Obj.keys variables)) 0 then ""
  else
    let signatures := map variableSignature variables in
    "(" ++ join ", " signatures ++ ")".

Definition compileDirectives (operation : BuilderOperation) : string :=
  match op_directives operation with
  | Some directives =>
      if Nat.ltb 0 (List.length directives)
      then " " ++ join " " directives
      else ""
  | None => ""
  end.

Definition compile (operation : BuilderOperation) (only : bool)
    : Exc string :=
  let signature := compileVariables operation only in
  let directives := compileDirectives operation in
  lines <- compileFieldSelection (op_fields operation) only ;;
  Return (showOperationType (op_type operation) ++ " "
            ++ orElse (op_name operation) "" ++ signature ++ directives
            ++ " {" ++ newline
            ++ join newline lines ++ newline
            ++ "}").

Record Compiled : Type := {
  compiled_query : string;
  compiled_variables : Obj.t JSValue
}.

Definition compileWithVariableValues (operation : BuilderOperation)
    : Exc Compiled :=
  let variables := extractVariables (op_fields operation) true in
  q <- compile operation true ;;
  Return {| compiled_query := q;
            compiled_variables :=
              fold_left
                (fun acc entry =>
                   Obj.set (fst entry) (var_value (snd entry)) acc)
                variables [] |}.


(* ------------------------------------------------------------------ *)
(** ** Auxiliary notions used in the statements *)

(** *** Induction over selections *)

Section FieldValueInduction.
Variable P : FieldValue -> Prop.
Hypothesis HBool : forall b, P (FBool b).
Hypothesis HNull : P FNull.
Hypothesis HUndefined : P FUndefined.
Hypothesis HCall : forall args subselection,
  (forall sub, subselection = Some sub -> Forall (fun e => P (snd e)) sub) ->
  P (FCall args subselection).
Hypothesis HSelection : forall fields,
  Forall (fun e => P (snd e)) fields -> P (FSelection fields).

Fixpoint FieldValue_nested_ind (value : FieldValue) : P value :=
  let each :=
    fix each (fields : list (string * FieldValue))
      : Forall (fun e => P (snd e)) fields :=
      match fields with
      | [] => Forall_nil _
      | e :: rest => Forall_cons e (FieldValue_nested_ind (snd e)) (each rest)
      end in
  match value with
  | FBool b => HBool b
  | FNull => HNull
  | FUndefined => HUndefined
  | FCall args subselection =>
      HCall args subselection
        (fun sub Heq =>
           match subselection as s return s = Some sub -> _ with
           | Some sub' => fun H =>
               eq_ind sub' (fun l => Forall (fun e => P (snd e)) l) (each sub') sub
                 (f_equal (fun o => match o with Some l => l | None => sub' end) H)
           | None => fun H =>
               False_ind _ (eq_ind None
                              (fun o => match o with None => True | Some _ => False end)
                              I (Some sub) H)
           end Heq)
  | FSelection fields => HSelection fields (each fields)
  end.
End FieldValueInduction.

(** A field mapped to [null] or [undefined] somewhere [compileFieldSelection]
    descends to. *)
Fixpoint nullIn (value : FieldValue) : bool :=
  match value with
  | FNull | FUndefined => true
  | FBool _ => false
  | FCall _ (Some sub) => existsb (fun e => nullIn (snd e)) sub
  | FCall _ None => false
  | FSelection fields => existsb (fun e => nullIn (snd e)) fields
  end.

Definition hasNullField (fields : FieldSelection) : bool :=
  existsb (fun e => nullIn (snd e)) fields.

(** The keys [dropAbsent] deletes. *)
Definition absentKeys (variables : Obj.t GqlVariable) : list string :=
  Obj.keys (filter (fun e => isNullish (var_value (snd e))) variables).

(** The bare collection pass of [extractVariables]: the record with its
    prototype entry, before its own properties are read. *)
Definition collect (fields : FieldSelection) : Obj.t GqlVariable :=
  fold_left (fun vars entry => extractEntry vars (snd entry)) fields [].

(** The variable signature of a document as the grammar of the
    specification writes it, [(<$var: Type, ...>)], for a list of declared
    names with their types; nothing at all when the list is empty. *)
Definition declare (decls : list (string * string)) : string :=
  match decls with
  | [] => ""
  | _ :: _ =>
      "(" ++ join ", " (map (fun d => "$" ++ fst d ++ ": " ++ snd d) decls)
          ++ ")"
  end.

(** A selection without the arguments that refer to a [Variable] that has
    no value, at every depth [compileFieldSelection] descends to. *)
Fixpoint pruneValue (value : FieldValue) : FieldValue :=
  match value with
  | FCall args subselection =>
      FCall (filter (fun e => argPresent (snd e)) args)
        match subselection with
        | Some sub => Some (map (fun e => (fst e, pruneValue (snd e))) sub)
        | None => None
        end
  | FSelection fields =>
      FSelection (map (fun e => (fst e, pruneValue (snd e))) fields)
  | FBool _ | FNull | FUndefined => value
  end.

Definition pruneAbsent (fields : FieldSelection) : FieldSelection :=
  map (fun e => (fst e, pruneValue (snd e))) fields.

(** An argument whose value is the literal [null] or [undefined]. *)
Definition isNullLiteral (value : ArgValue) : bool :=
  match value with
  | ArgLit JNull | ArgLit JUndefined => true
  | ArgLit _ | ArgVar _ => false
  end.

(** A selection that contains no field call, at any depth. *)
Fixpoint callFree (value : FieldValue) : bool :=
  match value with
  | FCall _ _ => false
  | FSelection fields => forallb (fun e => callFree (snd e)) fields
  | FBool _ | FNull | FUndefined => true
  end.

Definition noFieldCalls (fields : FieldSelection) : bool :=
  forallb (fun e => callFree (snd e)) fields.

(** The body the specification describes for a selection without field
    calls: the names mapped to [true], each on a line of its own, under
    the braces of its parents, one unit of indentation per level.  (A
    name that is the empty string leaves no line.) *)
Fixpoint indentation (depth : nat) : string :=
  match depth with
  | 0 => ""
  | S d => indentation d ++ "  "
  end.

Fixpoint linesOf (depth : nat) (field : string) (value : FieldValue)
    : list string :=
  match value with
  | FBool true =>
      if String.eqb field "" then [] else [indentation depth ++ field]
  | FSelection fields =>
      (indentation depth ++ field ++ " {")
        :: List.app
             (flat_map (fun e => linesOf (S depth) (fst e) (snd e)) fields)
             [indentation depth ++ "}"]
  | FBool false | FNull | FUndefined | FCall _ _ => []
  end.

Definition expectedLines (fields : FieldSelection) : list string :=
  flat_map (fun e => linesOf 1 (fst e) (snd e)) fields.

(** The variables [extractVariables] visits, in the order it visits them,
    each with the name of the argument it is the value of: the arguments
    of the field calls of a selection, and of the selections nested in it.
    The sub-selection of a field call is not visited. *)
Definition argVariable (entry : string * ArgValue)
    : list (string * GqlVariable) :=
  match snd entry with
  | ArgVar v => [(fst entry, v)]
  | ArgLit _ => []
  end.

Fixpoint visitedIn (value : FieldValue) : list (string * GqlVariable) :=
  match value with
  | FCall args _ => flat_map argVariable args
  | FSelection fields => flat_map (fun e => visitedIn (snd e)) fields
  | FBool _ | FNull | FUndefined => []
  end.

Definition visited (fields : FieldSelection) : list (string * GqlVariable) :=
  flat_map (fun e => visitedIn (snd e)) fields.

(** Whether a visited variable can be written under [key]: its explicit
    name is [key], or it has none and [key] starts with the name of its
    argument (the argument name itself, or followed by a count). *)
Definition mayTake (key : string) (occurrence : string * GqlVariable) : bool :=
  match var_name (snd occurrence) with
  | Some explicit => String.eqb explicit key
  | None => String.prefix (fst occurrence) key
  end.

(* ------------------------------------------------------------------ *)
(** ** The [useAction] hook: running an action and reading its result

    Line numbers are those of [packages/api-client-core/spec/mockUrqlClient.ts],
    whose second part is the source of the hook. *)

Module UseAction.

(** *** Values the hook reads *)

(** [value[key]] for a property name.  Only the own properties of a plain
    object are modelled: on every other value the result is [undefined]. *)
Definition prop (value : JSValue) (key : string) : JSValue :=
  match value with
  | JObj props =>
      match Obj.get key props with
      | Some x => x
      | None => JUndefined
      end
  | _ => JUndefined
  end.

(** [value[0]]. *)
Definition first (value : JSValue) : JSValue :=
  match value with
  | JArr (x :: _) => x
  | JStr (String c _) => JStr (String c "")
  | JObj _ => prop value "0"
  | _ => JUndefined
  end.

(** Modelled from the spec: [get] of api-client-core's support module is
    not among the sources; it is the lookup of the mutation result under
    the path of field names that leads to it, [undefined] when a step of
    the path is missing. *)
Fixpoint walk (object : JSValue) (path : list string) : JSValue :=
  match path with
  | [] => object
  | key :: rest =>
      if isNullish object then JUndefined else walk (prop object key) rest
  end.

Definition get (object : JSValue) (path : list string) : JSValue :=
  match path with
  | [] => JUndefined
  | _ :: _ => walk object path
  end.

(** urql's [CombinedError]: a transport or protocol failure. *)
Record CombinedError : Type := {
  message : string;
  response : option JSValue
}.

(** Modelled from the spec: [ErrorWrapper] of the React bindings' [utils]
    is not among the sources; it is the structured error of an action
    result, built either from urql's error, when there is one
    ([forMaybeCombinedError]), or from the [errors] that the mutation
    result reports ([forErrorsResponse]). *)
Inductive ErrorWrapper : Type :=
| WrappedCombinedError (error : CombinedError)
| WrappedErrorsResponse (errors : JSValue) (response : option JSValue).

Definition forMaybeCombinedError (error : option CombinedError)
    : option ErrorWrapper :=
  match error with
  | Some e => Some (WrappedCombinedError e)
  | None => None
  end.

Definition forErrorsResponse (errors : JSValue) (response : option JSValue)
    : ErrorWrapper :=
  WrappedErrorsResponse errors response.

(** [error?.response]. *)
Definition responseOf (error : option ErrorWrapper) : option JSValue :=
  match error with
  | Some (WrappedCombinedError e) => response e
  | Some (WrappedErrorsResponse _ r) => r
  | None => None
  end.

(** urql's [UseMutationState], and the [OperationResult] a mutation
    resolves to. *)
Record MutationState : Type := {
  fetching : bool;
  stale : bool;
  data : JSValue;
  error : option CombinedError
}.

Record OperationResult : Type := {
  result_stale : bool;
  result_data : JSValue;
  result_error : option CombinedError
}.

(** Modelled from the spec: [GadgetRecord] and [hydrateRecord] of
    api-client-core are not among the sources; hydration turns the raw
    JSON of a record into a record object that owns these fields. *)
Record GadgetRecord : Type := { recordFields : JSValue }.

Definition hydrateRecord (response : MutationState) (record : JSValue)
    : GadgetRecord :=
  {| recordFields := record |}.

(** The [data] of an action result: [null], the raw value an action with
    a return type yields, or a hydrated record. *)
Inductive ActionData : Type :=
| DataNull
| DataValue (value : JSValue)
| DataRecord (record : GadgetRecord).

Record ActionHookState : Type := {
  state_fetching : bool;
  state_stale : bool;
  state_data : ActionData;
  state_error : option ErrorWrapper
}.

(** One declared variable of an action: [{ type, ... }]. *)
Record VariableDescriptor : Type := { type : string }.

(** The [ActionFunction] descriptor, as far as the hook reads it. *)
Record ActionFunction : Type := {
  operationName : string;
  namespace : option string;
  modelApiIdentifier : string;
  modelSelectionField : string;
  variables : Obj.t VariableDescriptor;
  paramOnlyVariables : option (list string);
  hasAmbiguousIdentifier : bool;
  acceptsModelInput : bool;
  hasCreateOrUpdateEffect : bool;
  hasReturnType : bool
}.

(** *** [processResult] *)

Definition dataPath (action : ActionFunction) : list string :=
  let path := [operationName action] in
  match namespace action with
  | Some ns => if String.eqb ns "" then path else ns :: path
  | None => path
  end.

(** [errors && errors[0]]. *)
Definition reportsErrors (mutationData : JSValue) : bool :=
  let errors := prop mutationData "errors" in
  truthy errors && truthy (first errors).

Definition processResult (result : MutationState) (action : ActionFunction)
    : ActionHookState :=
  let error := forMaybeCombinedError (error result) in
  let unchanged := (error, DataNull) in
  let (error', data') :=
    if truthy (data result) then
      let mutationData := get (data result) (dataPath action) in
      if truthy mutationData then
        if reportsErrors mutationData then
          (Some (forErrorsResponse (prop mutationData "errors")
                   (responseOf error)),
           DataNull)
        else
          (error,
           if hasReturnType action
           then DataValue (prop mutationData "result")
           else DataRecord
                  (hydrateRecord result
                     (prop mutationData (modelSelectionField action))))
      else unchanged
    else unchanged in
  {| state_fetching := fetching result;
     state_stale := stale result;
     state_data := data';
     state_error := error' |}.

(** *** The function [useAction] returns for running the action *)

Record OperationContext : Type := {
  additionalTypenames : option (list string);
  otherOptions : JSValue
}.

(** What the hook is given from outside: the mutation runner of
    [useGadgetMutation], which dispatches to the transport, and
    [capitalizeIdentifier] of api-client-core. *)
Record Collaborators : Type := {
  runMutation : Obj.t JSValue -> OperationContext -> OperationResult;
  capitalizeIdentifier : string -> string
}.

(** A run of the function: the operations it dispatched to the transport,
    in order, and how it ended; [Throw] is the rejection of the promise
    the [async] function returns. *)
Record Run : Type := {
  dispatched : list (Obj.t JSValue * OperationContext);
  outcome : Exc ActionHookState
}.

(** [action.paramOnlyVariables?.includes(key)]. *)
Definition isParamOnly (action : ActionFunction) (key : string) : bool :=
  match paramOnlyVariables action with
  | Some names => existsb (String.eqb key) names
  | None => false
  end.

(** The predicate of the [some] of line 275. *)
Definition unexpectedKey (action : ActionFunction) (key : string) : bool :=
  negb (isParamOnly action key)
  && negb (String.eqb key (modelApiIdentifier action)).

Definition invalidArguments (action : ActionFunction) : JSError :=
  Error ("Invalid arguments found in variables. Did you mean to use ({ "
           ++ modelApiIdentifier action ++ ": { ... } })?").

(** Lines 274 to 278. *)
Definition rejects (action : ActionFunction) (vars : Obj.t JSValue) : bool :=
  hasAmbiguousIdentifier action
  && existsb (unexpectedKey action) (Obj.keys vars).

(** Line 281. *)
Definition idVariable (action : ActionFunction)
    : option (string * VariableDescriptor) :=
  find (fun entry =>
          String.eqb (fst entry) "id" && String.eqb (type (snd entry)) "GadgetID")
       (variables action).

(** [idVariable && key === idVariable[0]]. *)
Definition isIdVariable (action : ActionFunction) (key : string) : bool :=
  match idVariable action with
  | Some entry => String.eqb key (fst entry)
  | None => false
  end.

(** [newVariables[modelApiIdentifier][key] = value].  Setting a property
    of [undefined], of [null] or, the module being strict, of a primitive
    throws.  A named property of an array is not part of [JArr]; the case
    does not arise: what stands under the model identifier is the object
    being filled or a value that is no object. *)
Definition setNested (newVariables : Obj.t JSValue) (model key : string)
    (value : JSValue) : Exc (Obj.t JSValue) :=
  match Obj.get model newVariables with
  | Some (JObj inner) =>
      Return (Obj.set model (JObj (Obj.set key value inner)) newVariables)
  | Some (JArr items) => Return newVariables
  | _ => Throw (TypeError "Cannot set properties")
  end.

(** The body of the loop of lines 294 to 304. *)
Definition wrapEntry (action : ActionFunction)
    (acc : Exc (Obj.t JSValue)) (entry : string * JSValue)
    : Exc (Obj.t JSValue) :=
  newVariables <- acc ;;
  let (key, value) := entry in
  if isParamOnly action key then Return (Obj.set key value newVariables)
  else if isIdVariable action key then Return (Obj.set "id" value newVariables)
  else setNested newVariables (modelApiIdentifier action) key value.

(** Lines 285 to 287. *)
Definition alreadyNested (action : ActionFunction) (vars : Obj.t JSValue)
    : bool :=
  match Obj.get (modelApiIdentifier action) vars with
  | Some value => isObject value
  | None => false
  end.

(** Lines 280 to 308: the variables that are sent. *)
Definition mapVariables (action : ActionFunction) (vars : Obj.t JSValue)
    : Exc (Obj.t JSValue) :=
  if acceptsModelInput action || hasCreateOrUpdateEffect action then
    if alreadyNested action vars then Return vars
    else
      fold_left (wrapEntry action) vars
        (Return [(modelApiIdentifier action, JObj [])])
  else Return vars.

(** Lines 312 to 315. *)
Definition mutationContext (env : Collaborators) (action : ActionFunction)
    (context : option OperationContext) : OperationContext :=
  let given :=
    match context with
    | Some c =>
        match additionalTypenames c with
        | Some names => names
        | None => []
        end
    | None => []
    end in
  {| additionalTypenames :=
       Some (given ++ [capitalizeIdentifier env (modelApiIdentifier action)])%list;
     otherOptions :=
       match context with
       | Some c => otherOptions c
       | None => JUndefined
       end |}.

(** The callback of line 272; [None] for the variables is [null] or
    [undefined], which line 273 replaces by an empty object. *)
Definition runAction (env : Collaborators) (action : ActionFunction)
    (vars : option (Obj.t JSValue)) (context : option OperationContext)
    : Run :=
  let vars := match vars with Some given => given | None => [] end in
  if rejects action vars then
    {| dispatched := []; outcome := Throw (invalidArguments action) |}
  else
    match mapVariables action vars with
    | Throw e => {| dispatched := []; outcome := Throw e |}
    | Return newVariables =>
        let context' := mutationContext env action context in
        let result := runMutation env newVariables context' in
        {| dispatched := [(newVariables, context')];
           outcome :=
             Return (processResult
                       {| fetching := false;
                          stale := result_stale result;
                          data := result_data result;
                          error := result_error result |}
                       action) |}
    end.

(** The keys the mapping keeps at top level: the declared param-only
    variables and the [GadgetID]-typed [id] variable. *)
Definition keptAtTopLevel (action : ActionFunction) (key : string) : bool :=
  isParamOnly action key || isIdVariable action key.

End UseAction.

(* ------------------------------------------------------------------ *)
(** ** Notions used to state who writes a key of the extraction map *)

(** A binding after the step is a binding from before, or a visited
    variable that may take the key. *)
Definition Provenance (run : Obj.t GqlVariable -> Obj.t GqlVariable)
    (visits : list (string * GqlVariable)) : Prop :=
  forall variables k v,
    Obj.get k (run variables) = Some v ->
    Obj.get k variables = Some v
    \/ exists a, In (a, v) visits /\ mayTake k (a, v) = true.

(** No key is lost. *)
Definition Persistence (run : Obj.t GqlVariable -> Obj.t GqlVariable) : Prop :=
  forall variables k,
    Obj.has k variables = true -> Obj.has k (run variables) = true.

(** After an explicitly named variable was visited, its name is bound to
    it or to a variable visited later that may take the name (the name
    [__proto__] apart, which is not a key). *)
Definition LastWrite (run : Obj.t GqlVariable -> Obj.t GqlVariable)
    (visits : list (string * GqlVariable)) : Prop :=
  forall variables name before a2 v2 after,
    visits = (before ++ (a2, v2) :: after)%list ->
    var_name v2 = Some name ->
    name <> protoKey ->
    exists a v,
      Obj.get name (run variables) = Some v
      /\ In (a, v) ((a2, v2) :: after)
      /\ mayTake name (a, v) = true.

(* ------------------------------------------------------------------ *)
(** ** A sample action *)

Module Samples.
Import UseAction.

(** An [update] action of a model [post] with a param-only variable
    [notify]. *)
Definition sampleAction (returns ambiguous : bool) : ActionFunction :=
  {| operationName := "updatePost";
     namespace := None;
     modelApiIdentifier := "post";
     modelSelectionField := "post";
     variables := [("id", {| type := "GadgetID" |});
                   ("post", {| type := "UpdatePostInput" |});
                   ("notify", {| type := "Boolean" |})];
     paramOnlyVariables := Some ["notify"];
     hasAmbiguousIdentifier := ambiguous;
     acceptsModelInput := true;
     hasCreateOrUpdateEffect := true;
     hasReturnType := returns |}.

(** A response whose payload nests under the operation name. *)
Definition sampleResponse (payload : Obj.t JSValue) : MutationState :=
  {| fetching := false; stale := false;
     data := JObj [("updatePost", JObj payload)];
     error := None |}.

(** A transport that answers every mutation with one updated record. *)
Definition sampleEnv : Collaborators :=
  {| runMutation := fun _ _ =>
       {| result_stale := false;
          result_data :=
            JObj [("updatePost",
                   JObj [("success", JBool true);
                         ("post", JObj [("id", JStr "1")])])];
          result_error := None |};
     capitalizeIdentifier := fun _ => "Post" |}.

End Samples.

From Stdlib Require Import Permutation.

(* ------------------------------------------------------------------ *)
(** ** Further notions about the query compiler *)

(** Every [Variable] among the arguments of the field calls of a
    selection has a value, at any depth, sub-selections of field calls
    included. *)
Fixpoint everyVariablePresent (value : FieldValue) : bool :=
  match value with
  | FCall args subselection =>
      forallb (fun e => argPresent (snd e)) args
      && match subselection with
         | Some sub => forallb (fun e => everyVariablePresent (snd e)) sub
         | None => true
         end
  | FSelection fields => forallb (fun e => everyVariablePresent (snd e)) fields
  | FBool _ | FNull | FUndefined => true
  end.

Definition allPresent (fields : FieldSelection) : bool :=
  forallb (fun e => everyVariablePresent (snd e)) fields.




(** The record has a key of its own. *)
Definition hasOwnKey (variables : Obj.t GqlVariable) : Prop :=
  exists k, k <> protoKey /\ Obj.has k variables = true.

(** After the run, the record has a key of its own as soon as one of the
    visited variables is not explicitly named [__proto__]. *)
Definition LeavesKey (run : Obj.t GqlVariable -> Obj.t GqlVariable)
    (visits : list (string * GqlVariable)) : Prop :=
  forall variables o,
    In o visits -> var_name (snd o) <> Some protoKey ->
    hasOwnKey (run variables).

(* ------------------------------------------------------------------ *)
(** ** Further notions about the [useAction] hook *)

(** [data === null] for the [data] of an action result.  The raw value of
    an action with a return type can itself be [null]: line 342 assigns
    [mutationData.result] as it is. *)
Definition dataIsNull (data : UseAction.ActionData) : bool :=
  match data with
  | UseAction.DataNull => true
  | UseAction.DataValue JNull => true
  | UseAction.DataValue _ => false
  | UseAction.DataRecord _ => false
  end.

(* ------------------------------------------------------------------ *)
(** ** The mock urql client of [mockUrqlClient.ts] *)

Module MockUrqlClient.

(** *** [graphqlDocumentName] *)

(** The nodes of a parsed document, as far as the function reads them: the
    kind of a definition, the name of an operation when it has one, and
    the kinds and names of the selections of its selection set. *)
Inductive SelectionNode : Type :=
| Field (name : string)
| FragmentSpread (name : string)
| InlineFragment.

Inductive DefinitionNode : Type :=
| OperationDefinition (name : option string) (selections : list SelectionNode)
| FragmentDefinition (name : string) (selections : list SelectionNode)
| TypeSystemDefinition.

Definition DocumentNode : Type := list DefinitionNode.

Definition isOperationDefinition (definition : DefinitionNode) : bool :=
  match definition with
  | OperationDefinition _ _ => true
  | _ => false
  end.

Definition isField (selection : SelectionNode) : bool :=
  match selection with
  | Field _ => true
  | _ => false
  end.

(** lodash's [findLast(items, matches)]. *)
Definition findLast {A : Type} (matches : A -> bool) (items : list A)
    : option A :=
  find matches (rev items).

(** Lines 56 to 65; [None] is the [undefined] a document without
    operation definition gives. *)
Definition graphqlDocumentName (doc : DocumentNode) : Exc (option string) :=
  match findLast isOperationDefinition doc with
  | Some (OperationDefinition (Some name) _) => Return (Some name)
  | Some (OperationDefinition None selections) =>
      match find isField selections with
      | Some (Field name) => Return (Some name)
      | _ => Throw (TypeError "Cannot read properties of undefined")
      end
  | _ => Return None
  end.

(** *** [newMockOperationFn] *)

(** What a subject passes on: a pushed response, or the error result an
    abort produces. *)
Inductive Emitted : Type :=
| Response (response : JSValue)
| AbortError.

(** wonka's [makeSubject] (a library): a subject passes on what [next]
    gives it until [complete] ends it. *)
Record Subject : Type := {
  received : list Emitted;
  ended : bool
}.

Definition makeSubject : Subject := {| received := []; ended := false |}.

Definition next (value : Emitted) (subject : Subject) : Subject :=
  if ended subject then subject
  else {| received := (received subject ++ [value])%list; ended := false |}.

Definition complete (subject : Subject) : Subject :=
  {| received := received subject; ended := true |}.

(** The state a mock operation function closes over: the record
    [subjects], which maps a key to a subject, the subjects made so far
    (a subject is an object: the record and the sources handed out refer
    to it by its place here), and the abort listeners that were added,
    each with its signal and the key it captured. *)
Record MockOperationFn : Type := {
  subjects : Obj.t nat;
  heap : list Subject;
  listeners : list (nat * string)
}.

Definition newMockOperationFn : MockOperationFn :=
  {| subjects := []; heap := []; listeners := [] |}.

Record GraphQLRequest : Type := {
  request_query : DocumentNode;
  request_variables : JSValue
}.

(** [options?.fetchOptions]: a function, or an object that may carry a
    signal. *)
Inductive FetchOptions : Type :=
| FetchOptionsFunction
| FetchOptionsObject (signal : option nat).

(** Applies [change] to the subject at place [id]. *)
Fixpoint updateSubject (id : nat) (change : Subject -> Subject)
    (subjectsMade : list Subject) : list Subject :=
  match subjectsMade, id with
  | [], _ => []
  | subject :: rest, 0 => change subject :: rest
  | subject :: rest, S id' => subject :: updateSubject id' change rest
  end.

(** The mock function itself, lines 73 to 93: the new state and the
    subject whose source is returned, or what was thrown. *)
Definition execute (assertions : option (GraphQLRequest -> Exc unit))
    (request : GraphQLRequest) (fetchOptions : option FetchOptions)
    (fn : MockOperationFn) : MockOperationFn * Exc nat :=
  match graphqlDocumentName (request_query request) with
  | Throw e => (fn, Throw e)
  | Return name =>
      let key := orElse name "unknown" in
      let fn1 :=
        match Obj.get key (subjects fn) with
        | Some _ => fn
        | None =>
            {| subjects := Obj.set key (List.length (heap fn)) (subjects fn);
               heap := (heap fn ++ [makeSubject])%list;
               listeners := listeners fn |}
        end in
      let fn2 :=
        match fetchOptions with
        | Some (FetchOptionsObject (Some signal)) =>
            {| subjects := subjects fn1;
               heap := heap fn1;
               listeners := (listeners fn1 ++ [(signal, key)])%list |}
        | _ => fn1
        end in
      match match assertions with
            | Some check => check request
            | None => Return tt
            end with
      | Throw e => (fn2, Throw e)
      | Return _ =>
          match Obj.get key (subjects fn2) with
          | Some id => (fn2, Return id)
          | None => (fn2, Throw (TypeError "Cannot read properties of undefined"))
          end
      end
  end.

(** What the call of [assertions] gives, when there are assertions
    (lines 88 to 90). *)
Definition checked (assertions : option (GraphQLRequest -> Exc unit))
    (request : GraphQLRequest) : Exc unit :=
  match assertions with
  | Some check => check request
  | None => Return tt
  end.

(** The abort listener a call adds for its key (lines 78 to 86): one when
    the fetch options are an object with a signal, none otherwise. *)
Definition addedListeners (fetchOptions : option FetchOptions) (key : string)
    : list (nat * string) :=
  match fetchOptions with
  | Some (FetchOptionsObject (Some signal)) => [(signal, key)]
  | _ => []
  end.


Definition noSubjectStarted (key : string) (fn : MockOperationFn) : JSError :=
  Error ("No mock client subject started for key " ++ key
           ++ ", options are " ++ join ", " (Obj.keys (subjects fn))).

(** [fn.pushResponse], lines 96 to 108.  (React's [act] runs the callback
    it is given at once; what else it does for React is left out, as is
    the call log that [jest.fn] keeps.) *)
Definition pushResponse (key : string) (response : JSValue)
    (fn : MockOperationFn) : MockOperationFn * Exc unit :=
  match Obj.get key (subjects fn) with
  | None => (fn, Throw (noSubjectStarted key fn))
  | Some id =>
      ({| subjects := Obj.delete key (subjects fn);
          heap :=
            updateSubject id (fun s => complete (next (Response response) s))
              (heap fn);
          listeners := listeners fn |},
       Return tt)
  end.

(** What the registry keeps: its keys are pairwise distinct, no two keys
    share a subject, and every subject it holds was made and has not been
    completed. *)
Definition registryOk (fn : MockOperationFn) : Prop :=
  NoDup (Obj.keys (subjects fn))
  /\ NoDup (map snd (subjects fn))
  /\ Forall (fun entry =>
               exists subject,
                 nth_error (heap fn) (snd entry) = Some subject
                 /\ ended subject = false)
       (subjects fn).

(** *** [newMockFetchFn] *)

(** The state a mock fetch function closes over: the requests that wait
    for a response, oldest first, each with the arguments of its call,
    and the promises that were resolved, each with its response. *)
Record MockFetchFn : Type := {
  requests : list (list JSValue);
  resolved : list (list JSValue * JSValue)
}.

Definition newMockFetchFn : MockFetchFn :=
  {| requests := []; resolved := [] |}.

(** The mock function, lines 119 to 127: the call waits. *)
Definition mockFetch (args : list JSValue) (fn : MockFetchFn) : MockFetchFn :=
  {| requests := (requests fn ++ [args])%list; resolved := resolved fn |}.

Definition noRequestStarted : JSError :=
  Error "no requests started for response pushing".

(** [fn.pushResponse], lines 130 to 138: the oldest request that waits is
    taken off the queue and its promise resolved with the response. *)
Definition pushFetchResponse (response : JSValue) (fn : MockFetchFn)
    : MockFetchFn * Exc unit :=
  match requests fn with
  | [] => (fn, Throw noRequestStarted)
  | request :: rest =>
      ({| requests := rest;
          resolved := (resolved fn ++ [(request, response)])%list |},
       Return tt)
  end.

(** Pushing several responses, one after the other, up to the first
    failure. *)
Fixpoint pushFetchResponses (responses : list JSValue) (fn : MockFetchFn)
    : MockFetchFn * Exc unit :=
  match responses with
  | [] => (fn, Return tt)
  | response :: rest =>
      match pushFetchResponse response fn with
      | (fn', Return _) => pushFetchResponses rest fn'
      | (fn', Throw e) => (fn', Throw e)
      end
  end.

End MockUrqlClient.
(* ================================================================== *)
(** * Properties *)

(** ** Lists *)

Lemma filter_twice {A : Type} (p q : A -> bool) (l : list A) :
  filter p (filter q l) = filter (fun x => q x && p x) l.
Proof.
  induction l as [|a rest IH]; simpl; auto.
  destruct (q a); simpl; [destruct (p a)|]; now rewrite IH.
Qed.

(** ** Strings *)

Lemma append_nil_r (s : string) : s ++ "" = s.
Proof. induction s as [|c s IH]; simpl; [|rewrite IH]; reflexivity. Qed.

Lemma append_assoc (a b c : string) : (a ++ b) ++ c = a ++ (b ++ c).
Proof. induction a as [|x a IH]; simpl; [|rewrite IH]; reflexivity. Qed.

Lemma append_inj_l (a b c : string) : a ++ b = a ++ c -> b = c.
Proof. induction a as [|x a IH]; simpl; [auto|]. intros [= H]. auto. Qed.

(** ** Records *)

Module ObjFacts.
Section Facts.
Context {V : Type}.
Implicit Types (o : Obj.t V) (k : string) (v : V).

Lemma get_set_same k v o : Obj.get k (Obj.set k v o) = Some v.
Proof.
  induction o as [|[k' v'] rest IH]; simpl.
  - now rewrite String.eqb_refl.
  - destruct (String.eqb k k') eqn:E; simpl; rewrite E; auto.
Qed.

Lemma get_set_other k k' v o :
  k <> k' -> Obj.get k (Obj.set k' v o) = Obj.get k o.
Proof.
  intros Hne. induction o as [|[k0 v0] rest IH]; simpl.
  - apply String.eqb_neq in Hne. now rewrite Hne.
  - destruct (String.eqb k' k0) eqn:E; simpl.
    + apply String.eqb_eq in E. subst k0.
      apply String.eqb_neq in Hne. now rewrite Hne.
    + destruct (String.eqb k k0); auto.
Qed.

Lemma has_in_keys k o : Obj.has k o = true <-> In k (Obj.keys o).
Proof.
  unfold Obj.has. induction o as [|[k' v'] rest IH]; simpl.
  - split; [discriminate | tauto].
  - destruct (String.eqb k k') eqn:E.
    + apply String.eqb_eq in E. subst. tauto.
    + apply String.eqb_neq in E. rewrite IH. split; [tauto|].
      intros [H|H]; [congruence | exact H].
Qed.

Lemma get_none_not_in k o : Obj.get k o = None <-> ~ In k (Obj.keys o).
Proof.
  rewrite <- has_in_keys. unfold Obj.has.
  destruct (Obj.get k o); split; congruence.
Qed.

Lemma get_in k v o : Obj.get k o = Some v -> In (k, v) o.
Proof.
  induction o as [|[k' v'] rest IH]; simpl; [discriminate|].
  destruct (String.eqb k k') eqn:E.
  - apply String.eqb_eq in E. intros [= ->]. subst. now left.
  - intros H. right. auto.
Qed.

Lemma in_get k v o : NoDup (Obj.keys o) -> In (k, v) o -> Obj.get k o = Some v.
Proof.
  induction o as [|[k' v'] rest IH]; simpl; [tauto|].
  intros Hnd [H|H].
  - injection H as -> ->. now rewrite String.eqb_refl.
  - inversion Hnd as [|? ? Hnotin Hnd']; subst.
    destruct (String.eqb k k') eqn:E; auto.
    apply String.eqb_eq in E. subst k'. exfalso. apply Hnotin.
    change (In (fst (k, v)) (map fst rest)). now apply in_map.
Qed.

Lemma keys_set k v o :
  Obj.keys (Obj.set k v o)
  = if Obj.has k o then Obj.keys o else (Obj.keys o ++ [k])%list.
Proof.
  unfold Obj.has. induction o as [|[k' v'] rest IH]; simpl; auto.
  destruct (String.eqb k k') eqn:E; simpl; auto.
  rewrite IH. now destruct (Obj.get k rest).
Qed.

Lemma set_fresh k v o :
  Obj.has k o = false -> Obj.set k v o = (o ++ [(k, v)])%list.
Proof.
  unfold Obj.has. induction o as [|[k' v'] rest IH]; simpl; auto.
  destruct (String.eqb k k'); [discriminate|].
  intros H. now rewrite IH.
Qed.

Lemma NoDup_keys_set k v o :
  NoDup (Obj.keys o) -> NoDup (Obj.keys (Obj.set k v o)).
Proof.
  intros Hnd. rewrite keys_set. destruct (Obj.has k o) eqn:E; auto.
  apply NoDup_app; auto.
  - repeat constructor. simpl. tauto.
  - intros x Hx [<- | []].
    apply has_in_keys in Hx. congruence.
Qed.

Lemma in_set k v k' v' o :
  In (k', v') (Obj.set k v o) -> (k' = k /\ v' = v) \/ In (k', v') o.
Proof.
  induction o as [|[k0 v0] rest IH]; simpl.
  - intros [[= <- <-] | []]. now left.
  - destruct (String.eqb k k0) eqn:E; simpl.
    + apply String.eqb_eq in E. subst k0.
      intros [[= <- <-] | H]; [now left | right; now right].
    + intros [H | H]; [right; now left|].
      destruct (IH H) as [?|?]; [now left | right; now right].
Qed.

Lemma keys_delete_incl k o : incl (Obj.keys (Obj.delete k o)) (Obj.keys o).
Proof.
  induction o as [|[k0 v0] rest IH]; simpl; [apply incl_refl|].
  destruct (String.eqb k k0); simpl.
  - apply incl_tl, incl_refl.
  - apply incl_cons; [now left | now apply incl_tl].
Qed.

Lemma NoDup_keys_delete k o :
  NoDup (Obj.keys o) -> NoDup (Obj.keys (Obj.delete k o)).
Proof.
  induction o as [|[k0 v0] rest IH]; simpl; auto.
  intros Hnd. inversion Hnd as [|? ? Hnotin Hnd']; subst.
  destruct (String.eqb k k0); simpl; auto.
  constructor; auto. intros Hin. apply Hnotin.
  now apply (keys_delete_incl k rest).
Qed.

Lemma NoDup_keys_assign (target source : Obj.t V) :
  NoDup (Obj.keys target) -> NoDup (Obj.keys (Obj.assign target source)).
Proof.
  unfold Obj.assign. revert target.
  induction source as [|[k v] rest IH]; simpl; auto.
  intros target Hnd. apply IH. now apply NoDup_keys_set.
Qed.

End Facts.
End ObjFacts.

(** ** Which selections compile *)

Lemma flatMapExc_returns {A B : Type} (f : A -> Exc (list B)) (items : list A) :
  returns (flatMapExc f items) = forallb (fun a => returns (f a)) items.
Proof.
  induction items as [|a rest IH]; simpl; auto.
  destruct (f a); simpl; auto.
  rewrite <- IH. now destruct (flatMapExc f rest).
Qed.

Lemma compileFieldSelection_unfold fields only :
  compileFieldSelection fields only
  = (cells <- flatMapExc
                (fun entry => compileEntry only (fst entry) (snd entry))
                fields ;;
     Return (indentLines cells)).
Proof. reflexivity. Qed.

Lemma compileEntry_call only field args subselection :
  compileEntry only field (FCall args subselection)
  = match subselection with
    | Some sub =>
        lines <- compileFieldSelection sub only ;;
        Return (Some (field ++ renderArgs only args ++ " {")
                  :: List.app (map Some lines) [Some "}"])
    | None => Return [Some (field ++ renderArgs only args)]
    end.
Proof. destruct subselection; reflexivity. Qed.

Lemma compileEntry_selection only field fields :
  compileEntry only field (FSelection fields)
  = (lines <- compileFieldSelection fields only ;;
     Return (Some (field ++ " {") :: List.app (map Some lines) [Some "}"])).
Proof. reflexivity. Qed.

Lemma returns_bind {A B : Type} (m : Exc A) (k : A -> Exc B) :
  (forall a, returns (k a) = true) -> returns (bindExc m k) = returns m.
Proof. destruct m; simpl; auto. Qed.

Lemma compileFieldSelection_returns_forallb fields only :
  returns (compileFieldSelection fields only)
  = forallb (fun e => returns (compileEntry only (fst e) (snd e))) fields.
Proof.
  rewrite compileFieldSelection_unfold, returns_bind by reflexivity.
  apply flatMapExc_returns.
Qed.

Lemma compileEntry_returns only field value :
  returns (compileEntry only field value) = negb (nullIn value).
Proof.
  revert field.
  induction value as [b| | |args subselection IH|fields IH]
    using FieldValue_nested_ind; intros field; try reflexivity.
  - rewrite compileEntry_call. destruct subselection as [sub|]; [|reflexivity].
    rewrite returns_bind by reflexivity.
    rewrite compileFieldSelection_returns_forallb. simpl.
    specialize (IH sub eq_refl).
    induction IH as [|e rest He _ IHrest]; simpl; auto.
    rewrite He, IHrest. now rewrite negb_orb.
  - rewrite compileEntry_selection, returns_bind by reflexivity.
    rewrite compileFieldSelection_returns_forallb. simpl.
    induction IH as [|e rest He _ IHrest]; simpl; auto.
    rewrite He, IHrest. now rewrite negb_orb.
Qed.

(** [compileFieldSelection] throws exactly on the selections that map a
    field to [null] or [undefined]. *)
Lemma compileFieldSelection_returns fields only :
  returns (compileFieldSelection fields only) = negb (hasNullField fields).
Proof.
  rewrite compileFieldSelection_returns_forallb. unfold hasNullField.
  induction fields as [|e rest IH]; simpl; auto.
  now rewrite compileEntry_returns, IH, negb_orb.
Qed.

Lemma compile_returns operation only :
  returns (compile operation only) = negb (hasNullField (op_fields operation)).
Proof.
  unfold compile. rewrite returns_bind by reflexivity.
  apply compileFieldSelection_returns.
Qed.

(** ** The extraction map has pairwise distinct keys *)

Import ObjFacts.

Lemma NoDup_keys_extractArg variables entry :
  NoDup (Obj.keys variables) -> NoDup (Obj.keys (extractArg variables entry)).
Proof.
  destruct entry as [name [v|j]]; simpl; auto.
  intros H. now apply NoDup_keys_set.
Qed.

Lemma NoDup_keys_fold {A : Type} (step : Obj.t GqlVariable -> A -> Obj.t GqlVariable)
    (items : list A) (variables : Obj.t GqlVariable) :
  (forall vars a, NoDup (Obj.keys vars) -> NoDup (Obj.keys (step vars a))) ->
  NoDup (Obj.keys variables) ->
  NoDup (Obj.keys (fold_left step items variables)).
Proof.
  intros Hstep. revert variables.
  induction items as [|a rest IH]; simpl; auto.
Qed.

Lemma NoDup_keys_extractEntry variables value :
  NoDup (Obj.keys variables) -> NoDup (Obj.keys (extractEntry variables value)).
Proof.
  destruct value as [b| | |args sub|fields]; simpl; auto.
  - intros H. apply NoDup_keys_fold; auto.
    intros. now apply NoDup_keys_extractArg.
  - apply NoDup_keys_assign.
Qed.

(** ** The own properties of the record *)

Lemma ownEntries_in k v variables :
  In (k, v) (ownEntries variables) <-> In (k, v) variables /\ k <> protoKey.
Proof.
  unfold ownEntries. rewrite filter_In. simpl.
  rewrite negb_true_iff, String.eqb_neq. reflexivity.
Qed.

Lemma ownEntries_id variables :
  Obj.has protoKey variables = false -> ownEntries variables = variables.
Proof.
  intros H. apply forallb_filter_id, forallb_forall. intros [k v] Hin. simpl.
  apply negb_true_iff, String.eqb_neq. intros ->.
  apply not_true_iff_false in H. apply H, has_in_keys.
  change protoKey with (fst (protoKey, v)). now apply in_map.
Qed.

(** [dropAbsent] keeps, in their order, the entries whose variable has a
    value. *)
Lemma delete_as_filter {V : Type} (k : string) (o : Obj.t V) :
  NoDup (Obj.keys o) ->
  Obj.delete k o = filter (fun e => negb (String.eqb k (fst e))) o.
Proof.
  induction o as [|[k0 v0] rest IH]; simpl; auto.
  intros Hnd. inversion Hnd as [|? ? Hnotin Hnd']; subst.
  destruct (String.eqb k k0) eqn:E; simpl.
  - apply String.eqb_eq in E. subst k0.
    symmetry. apply forallb_filter_id. apply forallb_forall.
    intros [k1 v1] Hin. simpl. apply negb_true_iff, String.eqb_neq.
    intros ->. apply Hnotin.
    change (In (fst (k1, v1)) (map fst rest)). now apply in_map.
  - now rewrite IH.
Qed.

Lemma dropAbsent_fold snapshot variables :
  NoDup (Obj.keys variables) ->
  fold_left
    (fun vars entry =>
       if isNullish (var_value (snd entry))
       then Obj.delete (fst entry) vars
       else vars)
    snapshot variables
  = filter
      (fun e : string * GqlVariable =>
         negb (existsb (String.eqb (fst e)) (absentKeys snapshot)))
      variables.
Proof.
  revert variables.
  induction snapshot as [|[k v] rest IH]; simpl; intros variables Hnd.
  - symmetry. now apply forallb_filter_id, forallb_forall.
  - unfold absentKeys. simpl.
    destruct (isNullish (var_value v)) eqn:E; simpl.
    + rewrite IH by now apply NoDup_keys_delete.
      rewrite delete_as_filter by assumption.
      rewrite filter_twice. apply filter_ext. intros [k1 v1]. simpl.
      now rewrite (String.eqb_sym k1 k), negb_orb.
    + now apply IH.
Qed.

Lemma dropAbsent_filter variables :
  NoDup (Obj.keys variables) ->
  dropAbsent variables = filter (fun e => present (snd e)) variables.
Proof.
  intros Hnd. unfold dropAbsent. rewrite dropAbsent_fold by assumption.
  apply filter_ext_in. intros [k v] Hin. simpl. unfold present. f_equal.
  destruct (isNullish (var_value v)) eqn:E.
  - apply existsb_exists. exists k. split; [|apply String.eqb_refl].
    unfold absentKeys, Obj.keys.
    change k with (fst (k, v)). apply in_map, filter_In. auto.
  - apply not_true_is_false. intros Hex.
    apply existsb_exists in Hex. destruct Hex as [k' [Hin' Heq]].
    apply String.eqb_eq in Heq. subst k'.
    unfold absentKeys, Obj.keys in Hin'. apply in_map_iff in Hin'.
    destruct Hin' as [[k2 v2] [Hk Hf]]. simpl in Hk. subst k2.
    apply filter_In in Hf. destruct Hf as [Hin2 Hnull]. simpl in Hnull.
    assert (Some v = Some v2) as [= ->].
    { rewrite <- (in_get k v variables), <- (in_get k v2 variables); auto. }
    congruence.
Qed.

Lemma NoDup_keys_filter {V : Type} (p : string * V -> bool) (o : Obj.t V) :
  NoDup (Obj.keys o) -> NoDup (Obj.keys (filter p o)).
Proof.
  induction o as [|[k v] rest IH]; simpl; auto.
  intros Hnd. inversion Hnd as [|? ? Hnotin Hnd']; subst.
  destruct (p (k, v)); simpl; auto.
  constructor; auto. intros Hin. apply Hnotin.
  unfold Obj.keys in *. apply in_map_iff in Hin.
  destruct Hin as [e [He Hf]]. apply filter_In in Hf.
  subst k. apply in_map. tauto.
Qed.

Lemma NoDup_keys_collect fields : NoDup (Obj.keys (collect fields)).
Proof.
  apply NoDup_keys_fold; [|constructor].
  intros. now apply NoDup_keys_extractEntry.
Qed.

Lemma NoDup_keys_ownEntries variables :
  NoDup (Obj.keys variables) -> NoDup (Obj.keys (ownEntries variables)).
Proof. apply NoDup_keys_filter. Qed.

Lemma extractVariables_false fields :
  extractVariables fields false = ownEntries (collect fields).
Proof. reflexivity. Qed.

Lemma extractVariables_true fields :
  extractVariables fields true
  = filter (fun e => present (snd e)) (extractVariables fields false).
Proof.
  unfold extractVariables.
  apply dropAbsent_filter, NoDup_keys_ownEntries, NoDup_keys_collect.
Qed.

Lemma NoDup_keys_extractVariables fields only :
  NoDup (Obj.keys (extractVariables fields only)).
Proof.
  destruct only.
  - rewrite extractVariables_true. apply NoDup_keys_filter.
    apply NoDup_keys_ownEntries, NoDup_keys_collect.
  - apply NoDup_keys_ownEntries, NoDup_keys_collect.
Qed.

(** The [reduce] of [compileWithVariableValues] writes one entry per
    extracted variable, in order. *)
Lemma reduce_values_fold (variables : Obj.t GqlVariable) (acc : Obj.t JSValue) :
  NoDup (Obj.keys acc ++ Obj.keys variables) ->
  fold_left
    (fun acc entry => Obj.set (fst entry) (var_value (snd entry)) acc)
    variables acc
  = (acc ++ map (fun e => (fst e, var_value (snd e))) variables)%list.
Proof.
  revert acc. induction variables as [|[k v] rest IH]; simpl; intros acc Hnd.
  - now rewrite app_nil_r.
  - rewrite set_fresh.
    + rewrite IH.
      * now rewrite <- app_assoc.
      * unfold Obj.keys in *. rewrite map_app. simpl.
        rewrite <- app_assoc. exact Hnd.
    + apply not_true_is_false. intros Hhas. apply has_in_keys in Hhas.
      apply NoDup_remove_2 in Hnd. apply Hnd, in_or_app. now left.
Qed.

Lemma reduce_values variables :
  NoDup (Obj.keys variables) ->
  fold_left
    (fun acc entry => Obj.set (fst entry) (var_value (snd entry)) acc)
    variables []
  = map (fun e => (fst e, var_value (snd e))) variables.
Proof. intros H. now rewrite reduce_values_fold. Qed.

(** ** The document declares the variables that are sent *)

Lemma compileVariables_declare operation only :
  compileVariables operation only
  = declare (map (fun e => (fst e, var_type (snd e)))
               (extractVariables (op_fields operation) only)).
Proof.
  unfold compileVariables, Obj.keys.
  destruct (extractVariables (op_fields operation) only) as [|e rest];
    [reflexivity|].
  cbn [List.length map Nat.eqb declare]. do 2 f_equal.
  rewrite map_map. reflexivity.
Qed.

Lemma combine_fst_snd {A B : Type} (l : list (A * B)) :
  combine (map fst l) (map snd l) = l.
Proof.
  induction l as [|[a b] rest IH]; simpl; [|rewrite IH]; reflexivity.
Qed.

Lemma compileWithVariableValues_eq operation :
  compileWithVariableValues operation
  = (q <- compile operation true ;;
     Return {| compiled_query := q;
               compiled_variables :=
                 map (fun e => (fst e, var_value (snd e)))
                   (extractVariables (op_fields operation) true) |}).
Proof.
  unfold compileWithVariableValues.
  now rewrite reduce_values by apply NoDup_keys_extractVariables.
Qed.

Lemma throws_hasNullField operation only e :
  compile operation only = Throw e -> hasNullField (op_fields operation) = true.
Proof.
  intros H. pose proof (compile_returns operation only) as R.
  rewrite H in R. simpl in R. now destruct (hasNullField (op_fields operation)).
Qed.

(** C1.  For every operation on which [compileWithVariableValues] returns,
    the keys of the returned variables map are pairwise distinct and the
    returned query string carries, between the operation name and the
    directives, the signature that declares exactly those keys, in the
    same order, each once, with the type of the variable extracted under
    that key: no key lacks a declaration and no declaration lacks a key.
    The only operations on which it does not return are those whose
    selection maps a field to [null] or [undefined]. *)
Theorem compileWithVariableValues_declares_its_variables
    (operation : BuilderOperation) :
  match compileWithVariableValues operation with
  | Return r =>
      let names := Obj.keys (compiled_variables r) in
      let types :=
        map (fun e => var_type (snd e))
          (extractVariables (op_fields operation) true) in
      NoDup names
      /\ List.length types = List.length names
      /\ exists lines : list string,
           compileFieldSelection (op_fields operation) true = Return lines
           /\ compiled_query r
              = showOperationType (op_type operation) ++ " "
                  ++ orElse (op_name operation) ""
                  ++ declare (combine names types)
                  ++ compileDirectives operation
                  ++ " {" ++ newline ++ join newline lines ++ newline ++ "}"
  | Throw _ => hasNullField (op_fields operation) = true
  end.
Proof.
  rewrite compileWithVariableValues_eq.
  destruct (compile operation true) as [q|e] eqn:Hq;
    cbn [bindExc compiled_variables compiled_query].
  - set (vars := extractVariables (op_fields operation) true).
    assert (Hkeys : Obj.keys (map (fun e => (fst e, var_value (snd e))) vars)
                    = Obj.keys vars).
    { unfold Obj.keys. rewrite map_map. reflexivity. }
    cbv zeta. rewrite Hkeys. split; [apply NoDup_keys_extractVariables|].
    split; [unfold Obj.keys; now rewrite !length_map|].
    unfold compile in Hq.
    destruct (compileFieldSelection (op_fields operation) true)
      as [lines|] eqn:Hl; simpl in Hq; [|discriminate].
    exists lines. split; [reflexivity|].
    injection Hq as <-. rewrite compileVariables_declare. fold vars.
    do 3 f_equal. unfold Obj.keys.
    rewrite <- (combine_fst_snd (map (fun e => (fst e, var_type (snd e))) vars)).
    now rewrite !map_map.
  - now apply throws_hasNullField in Hq.
Qed.

(** ** Only present variable values *)

Lemma flatMapExc_ext_map {A B : Type} (f g : A -> Exc (list B)) (h : A -> A)
    (items : list A) :
  Forall (fun a => f a = g (h a)) items ->
  flatMapExc f items = flatMapExc g (map h items).
Proof.
  induction 1 as [|a rest Ha _ IH]; simpl; auto.
  now rewrite Ha, IH.
Qed.

Lemma argEntries_true args :
  argEntries true args = argEntries false (filter (fun e => argPresent (snd e)) args).
Proof.
  unfold argEntries. rewrite !filter_twice. apply filter_ext.
  intros e. apply andb_comm.
Qed.

Lemma argEntries_idem only args :
  argEntries only (filter (fun e => argPresent (snd e)) args)
  = argEntries true args.
Proof.
  rewrite argEntries_true. destruct only; [|reflexivity].
  rewrite argEntries_true. f_equal.
  rewrite filter_twice. apply filter_ext. intros e. now destruct (argPresent (snd e)).
Qed.

Lemma renderArgs_true only args :
  renderArgs true args
  = renderArgs only (filter (fun e => argPresent (snd e)) args).
Proof.
  unfold renderArgs, argSignatures. now rewrite argEntries_idem.
Qed.

Lemma compileEntry_prune only field value :
  compileEntry true field value = compileEntry only field (pruneValue value).
Proof.
  revert field.
  induction value as [b| | |args subselection IH|fields IH]
    using FieldValue_nested_ind; intros field; try reflexivity.
  - cbn [pruneValue]. rewrite !compileEntry_call.
    rewrite <- (renderArgs_true only).
    destruct subselection as [sub|]; [|reflexivity].
    rewrite !compileFieldSelection_unfold.
    rewrite (flatMapExc_ext_map _
               (fun entry => compileEntry only (fst entry) (snd entry))
               (fun e => (fst e, pruneValue (snd e)))); [reflexivity|].
    specialize (IH sub eq_refl).
    eapply Forall_impl; [|exact IH]. intros e He. simpl. apply He.
  - cbn [pruneValue]. rewrite !compileEntry_selection.
    rewrite !compileFieldSelection_unfold.
    rewrite (flatMapExc_ext_map _
               (fun entry => compileEntry only (fst entry) (snd entry))
               (fun e => (fst e, pruneValue (snd e)))); [reflexivity|].
    eapply Forall_impl; [|exact IH]. intros e He. simpl. apply He.
Qed.

Lemma compileFieldSelection_prune only fields :
  compileFieldSelection fields true
  = compileFieldSelection (pruneAbsent fields) only.
Proof.
  rewrite !compileFieldSelection_unfold. unfold pruneAbsent.
  rewrite (flatMapExc_ext_map _
             (fun entry => compileEntry only (fst entry) (snd entry))
             (fun e => (fst e, pruneValue (snd e)))); [reflexivity|].
  apply Forall_forall. intros e _. simpl. apply compileEntry_prune.
Qed.





(** ** Literal [null] and [undefined] arguments *)

Lemma argDefined_isNullLiteral value :
  argDefined value = negb (isNullLiteral value).
Proof. destruct value as [v|[]]; reflexivity. Qed.

Lemma argEntries_drop_null_literals only args :
  argEntries only args
  = argEntries only (filter (fun e => negb (isNullLiteral (snd e))) args).
Proof.
  assert (H : filter (fun e => argDefined (snd e)) args
              = filter (fun e => argDefined (snd e))
                  (filter (fun e => negb (isNullLiteral (snd e))) args)).
  { rewrite filter_twice. apply filter_ext. intros e.
    rewrite argDefined_isNullLiteral. now destruct (isNullLiteral (snd e)). }
  unfold argEntries. now rewrite <- H.
Qed.

(** C10.  Whatever the flag, the arguments of a field call whose value is
    the literal [null] or [undefined] are not rendered: the signatures, and
    with them the compiled field, are those of the call without these
    arguments, and with the flag off every other argument is rendered.
    When no other argument is left the argument string is empty, so a call
    without sub-selection compiles to the bare field name and one with a
    sub-selection to the field name followed by its opening brace. *)
Theorem null_literal_arguments_are_omitted
    (only : bool) (field : string) (args : list (string * ArgValue))
    (subselection : option FieldSelection) :
  let kept := filter (fun e => negb (isNullLiteral (snd e))) args in
  argSignatures only args = argSignatures only kept
  /\ argEntries false args = kept
  /\ incl (argEntries only args) kept
  /\ compileEntry only field (FCall args subselection)
     = compileEntry only field (FCall kept subselection)
  /\ (kept = [] ->
      renderArgs only args = ""
      /\ compileEntry only field (FCall args None) = Return [Some field]
      /\ forall sub,
           compileEntry only field (FCall args (Some sub))
           = (lines <- compileFieldSelection sub only ;;
              Return (Some (field ++ " {")
                        :: List.app (map Some lines) [Some "}"]))).
Proof.
  intros kept.
  assert (Hsig : argSignatures only args = argSignatures only kept).
  { unfold argSignatures. now rewrite argEntries_drop_null_literals. }
  assert (Hargs : renderArgs only args = renderArgs only kept).
  { unfold renderArgs. now rewrite Hsig. }
  assert (Hfalse : argEntries false args = kept).
  { unfold argEntries, kept. apply filter_ext. intros e.
    apply argDefined_isNullLiteral. }
  split; [exact Hsig|]. split; [exact Hfalse|]. split.
  - rewrite <- Hfalse. unfold argEntries. destruct only.
    + apply incl_filter.
    + apply incl_refl.
  - split.
    + rewrite !compileEntry_call. now rewrite Hargs.
    + intros Hnil.
      assert (Hempty : renderArgs only args = "").
      { rewrite Hargs, Hnil. now destruct only. }
      split; [exact Hempty|]. split.
      * rewrite compileEntry_call, Hempty. now rewrite append_nil_r.
      * intros sub. rewrite compileEntry_call, Hempty. reflexivity.
Qed.

Lemma null_literal_arguments_are_omitted_witness :
  let args := [("first", ArgLit JNull); ("after", ArgLit JUndefined)] in
  renderArgs false args = ""
  /\ compileEntry false "users" (FCall args None) = Return [Some "users"]
  /\ compileFieldSelection
       [("users", Call args (Some [("id", FBool true)]))] false
     = Return ["  users {"; "    id"; "  }"].
Proof.
  intros args.
  destruct (null_literal_arguments_are_omitted false "users" args None)
    as (_ & _ & _ & _ & H).
  destruct (H eq_refl) as (H1 & H2 & H3).
  split; [exact H1|]. split; [exact H2|].
  rewrite compileFieldSelection_unfold. cbn [flatMapExc fst snd Call].
  rewrite H3. reflexivity.
Defined.

(** ** Fields mapped to [null] or [undefined] *)

Lemma flatMapExc_app {A B : Type} (f : A -> Exc (list B)) (l1 l2 : list A) :
  flatMapExc f (l1 ++ l2)
  = (x <- flatMapExc f l1 ;; y <- flatMapExc f l2 ;; Return (List.app x y)).
Proof.
  induction l1 as [|a rest IH]; simpl.
  - now destruct (flatMapExc f l2).
  - destruct (f a) as [x|e]; simpl; auto. rewrite IH.
    destruct (flatMapExc f rest) as [y|e]; simpl; auto.
    destruct (flatMapExc f l2) as [z|e]; simpl; auto.
    now rewrite app_assoc.
Qed.

Lemma flatMapExc_throws {A B : Type} (f : A -> Exc (list B)) (items : list A) e :
  flatMapExc f items = Throw e -> exists a, In a items /\ f a = Throw e.
Proof.
  induction items as [|a rest IH]; simpl; [discriminate|].
  destruct (f a) as [x|e'] eqn:Ha; simpl.
  - destruct (flatMapExc f rest) as [y|e'']; simpl; [discriminate|].
    intros [= ->]. destruct (IH eq_refl) as [b [Hb Hf]]. eauto.
  - intros [= ->]. eauto.
Qed.

Lemma compileFieldSelection_throws fields only e :
  compileFieldSelection fields only = Throw e ->
  exists entry, In entry fields
                /\ compileEntry only (fst entry) (snd entry) = Throw e.
Proof.
  rewrite compileFieldSelection_unfold. intros H.
  apply flatMapExc_throws.
  destruct (flatMapExc _ fields); simpl in H; [discriminate | now injection H as ->].
Qed.

(** The only exception the compiler raises is the [TypeError] of
    [Object.entries]. *)
Lemma compileEntry_throws only field value e :
  compileEntry only field value = Throw e -> e = nullToObject.
Proof.
  revert field.
  induction value as [b| | |args subselection IH|fields IH]
    using FieldValue_nested_ind; intros field.
  - discriminate.
  - now intros [= <-].
  - now intros [= <-].
  - rewrite compileEntry_call. destruct subselection as [sub|]; [|discriminate].
    specialize (IH sub eq_refl).
    destruct (compileFieldSelection sub only) as [lines|e'] eqn:Hs;
      simpl; [discriminate|].
    intros [= ->]. apply compileFieldSelection_throws in Hs.
    destruct Hs as [entry [Hin Hthrow]].
    rewrite Forall_forall in IH. eapply IH; eauto.
  - rewrite compileEntry_selection.
    destruct (compileFieldSelection fields only) as [lines|e'] eqn:Hs;
      simpl; [discriminate|].
    intros [= ->]. apply compileFieldSelection_throws in Hs.
    destruct Hs as [entry [Hin Hthrow]].
    rewrite Forall_forall in IH. eapply IH; eauto.
Qed.

Lemma compileFieldSelection_null fields only :
  hasNullField fields = true ->
  compileFieldSelection fields only = Throw nullToObject.
Proof.
  intros H. pose proof (compileFieldSelection_returns fields only) as R.
  rewrite H in R. destruct (compileFieldSelection fields only) as [|e] eqn:E;
    [discriminate|].
  apply compileFieldSelection_throws in E. destruct E as [entry [_ E]].
  apply compileEntry_throws in E. now subst.
Qed.

Lemma compile_null operation only :
  hasNullField (op_fields operation) = true ->
  compile operation only = Throw nullToObject.
Proof.
  intros H. unfold compile. now rewrite compileFieldSelection_null.
Qed.

Lemma hasNullField_app l1 l2 :
  hasNullField (l1 ++ l2)%list = hasNullField l1 || hasNullField l2.
Proof. apply existsb_app. Qed.

Lemma keepTruthy_app l1 l2 :
  keepTruthy (l1 ++ l2)%list = (keepTruthy l1 ++ keepTruthy l2)%list.
Proof.
  induction l1 as [|[s|] rest IH]; simpl; auto.
  destruct (String.eqb s ""); simpl; now rewrite IH.
Qed.

Lemma collect_app l1 l2 :
  collect (l1 ++ l2)%list
  = fold_left (fun vars entry => extractEntry vars (snd entry)) l2 (collect l1).
Proof. unfold collect. apply fold_left_app. Qed.

Lemma compileFieldSelection_skip_false before field after only :
  compileFieldSelection (before ++ (field, FBool false) :: after)%list only
  = compileFieldSelection (before ++ after)%list only.
Proof.
  rewrite !compileFieldSelection_unfold, !flatMapExc_app.
  destruct (flatMapExc _ before) as [x|e]; simpl; auto.
  destruct (flatMapExc _ after) as [y|e]; simpl; auto.
  unfold indentLines. now rewrite !keepTruthy_app.
Qed.

Lemma extractVariables_skip_false before field after only :
  extractVariables (before ++ (field, FBool false) :: after)%list only
  = extractVariables (before ++ after)%list only.
Proof.
  unfold extractVariables. fold (collect (before ++ (field, FBool false) :: after)%list).
  fold (collect (before ++ after)%list). now rewrite !collect_app.
Qed.

(** X3.  [compile] returns a document exactly when no field of the
    selection, at any depth [compileFieldSelection] descends to, is mapped
    to [null] or [undefined]; on every other operation it throws the
    [TypeError] of [Object.entries], whatever the flag. *)
Theorem compile_returns_iff_no_null_field
    (operation : BuilderOperation) (only : bool) :
  ((exists document, compile operation only = Return document)
   <-> hasNullField (op_fields operation) = false)
  /\ (compile operation only = Throw nullToObject
      <-> hasNullField (op_fields operation) = true).
Proof.
  pose proof (compile_returns operation only) as R.
  destruct (hasNullField (op_fields operation)) eqn:Hnull.
  - rewrite (compile_null operation only Hnull).
    split; split; auto; try discriminate.
    intros [document H]. discriminate.
  - destruct (compile operation only) as [document|e]; [|discriminate].
    split; split; auto; try discriminate.
    intros _. now exists document.
Qed.

(** C4 (the code departs from it).  An operation whose selection maps a
    field to [null] or to [undefined] is not compiled: [compile] throws the
    [TypeError] of [Object.entries], wherever the field stands among its
    siblings; a field mapped to [false] is left out and the operation
    compiles as if the field were not there. *)
Theorem compile_null_field_throws
    (kind : OperationType) (name : option string)
    (directives : option (list string))
    (before after : FieldSelection) (field : string) (only : bool) :
  let operation fields :=
    {| op_type := kind; op_fields := fields;
       op_name := name; op_directives := directives |} in
  compile (operation (before ++ (field, FNull) :: after)%list) only
  = Throw nullToObject
  /\ compile (operation (before ++ (field, FUndefined) :: after)%list) only
     = Throw nullToObject
  /\ compile (operation (before ++ (field, FBool false) :: after)%list) only
     = compile (operation (before ++ after)%list) only.
Proof.
  intros operation. split; [|split].
  - apply compile_null. simpl. rewrite hasNullField_app. simpl.
    now rewrite orb_true_r.
  - apply compile_null. simpl. rewrite hasNullField_app. simpl.
    now rewrite orb_true_r.
  - unfold compile, compileVariables. simpl.
    now rewrite compileFieldSelection_skip_false, extractVariables_skip_false.
Qed.

Lemma compile_null_field_throws_witness :
  let operation fields :=
    {| op_type := query; op_fields := fields;
       op_name := None; op_directives := None |} in
  compile (operation [("id", FBool true); ("name", FNull)]) false
  = Throw nullToObject
  /\ compile (operation [("id", FBool true); ("name", FBool false)]) false
     = Return ("query  {" ++ newline ++ "  id" ++ newline ++ "}").
Proof.
  intros operation.
  destruct (compile_null_field_throws query None None
              [("id", FBool true)] [] "name" false) as (H1 & _ & H3).
  split; [exact H1|]. cbv zeta in H3. unfold operation.
  etransitivity; [exact H3|]. reflexivity.
Defined.

(** ** Selections without field calls *)

Lemma extractEntry_callFree value :
  callFree value = true -> forall variables, extractEntry variables value = variables.
Proof.
  induction value as [b| | |args subselection IH|fields IH]
    using FieldValue_nested_ind; simpl; auto; [discriminate|].
  intros Hfree variables.
  assert (Hnil : forall acc,
            fold_left (fun vars entry => extractEntry vars (snd entry)) fields acc
            = acc).
  { induction IH as [|e rest He _ IHrest]; simpl; auto.
    simpl in Hfree. apply andb_true_iff in Hfree. destruct Hfree as [H1 H2].
    intros acc. rewrite (He H1). now apply IHrest. }
  now rewrite Hnil.
Qed.

Lemma collect_callFree fields :
  noFieldCalls fields = true -> collect fields = [].
Proof.
  unfold collect, noFieldCalls. generalize (@nil (string * GqlVariable)).
  induction fields as [|e rest IH]; simpl; auto.
  intros acc H. apply andb_true_iff in H. destruct H as [H1 H2].
  rewrite (extractEntry_callFree _ H1). now apply IH.
Qed.

Lemma extractVariables_callFree fields only :
  noFieldCalls fields = true -> extractVariables fields only = [].
Proof.
  intros H. unfold extractVariables. fold (collect fields).
  rewrite (collect_callFree _ H). now destruct only.
Qed.

Lemma append_brace_nonempty field : String.eqb (field ++ " {") "" = false.
Proof. now destruct field. Qed.

Lemma keepTruthy_indented lines :
  keepTruthy (map Some (map (fun line => "  " ++ line) lines))
  = map (fun line => "  " ++ line) lines.
Proof.
  induction lines as [|l rest IH]; [reflexivity|].
  cbn [map keepTruthy]. change (String.eqb ("  " ++ l) "") with false.
  cbv iota. now rewrite IH.
Qed.

Lemma flatMapExc_lines (f : string * FieldValue -> Exc (list (option string)))
    (expected : nat -> string * FieldValue -> list string)
    (items : list (string * FieldValue)) :
  Forall (fun e => exists cells,
            f e = Return cells
            /\ forall depth, map (append (indentation depth)) (keepTruthy cells)
                             = expected depth e) items ->
  exists cells,
    flatMapExc f items = Return cells
    /\ forall depth, map (append (indentation depth)) (keepTruthy cells)
                     = flat_map (expected depth) items.
Proof.
  induction 1 as [|e rest (c & Hc & He) _ (cs & Hcs & Hrest)]; simpl.
  - exists []. auto.
  - exists (c ++ cs)%list. rewrite Hc, Hcs. split; [reflexivity|].
    intros depth. now rewrite keepTruthy_app, map_app, He, Hrest.
Qed.

Lemma compileEntry_callFree only field value :
  callFree value = true -> nullIn value = false ->
  exists cells,
    compileEntry only field value = Return cells
    /\ forall depth, map (append (indentation depth)) (keepTruthy cells)
                     = linesOf depth field value.
Proof.
  revert field.
  induction value as [b| | |args subselection IH|fields IH]
    using FieldValue_nested_ind; intros field Hfree Hnull;
    try discriminate.
  - exists [if b then Some field else None]. split; [reflexivity|].
    intros depth. destruct b; simpl; [|reflexivity].
    now destruct (String.eqb field "").
  - assert (Hall : Forall (fun e => exists cells,
                compileEntry only (fst e) (snd e) = Return cells
                /\ forall depth,
                     map (append (indentation depth)) (keepTruthy cells)
                     = linesOf depth (fst e) (snd e)) fields).
    { simpl in Hfree, Hnull. rewrite Forall_forall in IH |- *.
      intros e He. apply IH; auto.
      - rewrite forallb_forall in Hfree. now apply Hfree.
      - apply not_true_is_false. intros Hn.
        assert (existsb (fun e => nullIn (snd e)) fields = true)
          by (apply existsb_exists; eauto).
        congruence. }
    apply (flatMapExc_lines
             (fun entry => compileEntry only (fst entry) (snd entry))
             (fun depth e => linesOf depth (fst e) (snd e))) in Hall.
    destruct Hall as (cells & Hcells & Hlines).
    rewrite compileEntry_selection, compileFieldSelection_unfold, Hcells.
    cbn [bindExc]. eexists. split; [reflexivity|].
    intros depth. cbn [keepTruthy]. rewrite append_brace_nonempty.
    rewrite keepTruthy_app. unfold indentLines. rewrite keepTruthy_indented.
    cbn [keepTruthy String.eqb map linesOf]. rewrite map_app. cbn [map].
    do 2 f_equal. rewrite map_map. rewrite <- Hlines. apply map_ext.
    intros line. cbn [indentation]. now rewrite append_assoc.
Qed.

Lemma compileFieldSelection_callFree only fields :
  noFieldCalls fields = true -> hasNullField fields = false ->
  compileFieldSelection fields only = Return (expectedLines fields).
Proof.
  intros Hfree Hnull.
  assert (Hall : Forall (fun e => exists cells,
              compileEntry only (fst e) (snd e) = Return cells
              /\ forall depth,
                   map (append (indentation depth)) (keepTruthy cells)
                   = linesOf depth (fst e) (snd e)) fields).
  { apply Forall_forall. intros e He. apply compileEntry_callFree.
    - unfold noFieldCalls in Hfree. rewrite forallb_forall in Hfree. auto.
    - apply not_true_is_false. intros Hn.
      assert (hasNullField fields = true)
        by (apply existsb_exists; eauto).
      congruence. }
  apply (flatMapExc_lines
           (fun entry => compileEntry only (fst entry) (snd entry))
           (fun depth e => linesOf depth (fst e) (snd e))) in Hall.
  destruct Hall as (cells & Hcells & Hlines).
  rewrite compileFieldSelection_unfold, Hcells. cbn [bindExc].
  f_equal. apply (Hlines 1).
Qed.

(** C5 (the code departs from it).  For an operation whose selection
    contains no field call at any depth, the document carries no variable
    signature, and [compile] either throws, when some field of the
    selection is mapped to [null] or [undefined], or returns the document
    whose body is the names mapped to [true], each under the braces of its
    parents. *)
Theorem compile_call_free_selection
    (operation : BuilderOperation) (only : bool) :
  noFieldCalls (op_fields operation) = true ->
  compileVariables operation only = ""
  /\ compile operation only
     = if hasNullField (op_fields operation)
       then Throw nullToObject
       else Return (showOperationType (op_type operation) ++ " "
                      ++ orElse (op_name operation) ""
                      ++ compileDirectives operation
                      ++ " {" ++ newline
                      ++ join newline (expectedLines (op_fields operation))
                      ++ newline ++ "}").
Proof.
  intros Hfree.
  assert (Hsig : compileVariables operation only = "").
  { unfold compileVariables. now rewrite extractVariables_callFree. }
  split; [exact Hsig|].
  destruct (hasNullField (op_fields operation)) eqn:Hnull.
  - now apply compile_null.
  - unfold compile. rewrite Hsig.
    now rewrite compileFieldSelection_callFree.
Qed.

Lemma compile_call_free_selection_witness :
  let operation fields :=
    {| op_type := query; op_fields := fields;
       op_name := Some "Owners"; op_directives := None |} in
  compile (operation
             [("id", FBool true);
              ("owner", FSelection [("name", FBool true);
                                    ("email", FUndefined)])]) false
  = Throw nullToObject
  /\ compile (operation
                [("id", FBool true);
                 ("owner", FSelection [("name", FBool true);
                                       ("email", FBool false)])]) false
     = Return ("query Owners {" ++ newline
                 ++ "  id" ++ newline
                 ++ "  owner {" ++ newline
                 ++ "    name" ++ newline
                 ++ "  }" ++ newline ++ "}").
Proof.
  intros operation. split.
  - exact (proj2 (compile_call_free_selection
                    (operation
                       [("id", FBool true);
                        ("owner", FSelection [("name", FBool true);
                                              ("email", FUndefined)])])
                    false eq_refl)).
  - exact (proj2 (compile_call_free_selection
                    (operation
                       [("id", FBool true);
                        ("owner", FSelection [("name", FBool true);
                                              ("email", FBool false)])])
                    false eq_refl)).
Defined.

(** ** [nextName] finds a free name *)

Lemma showNat_inj (a b : nat) : showNat a = showNat b -> a = b.
Proof.
  unfold showNat. intros H.
  apply (f_equal NilEmpty.uint_of_string) in H.
  rewrite !NilEmpty.usu in H. injection H as H.
  now apply Unsigned.to_uint_inj.
Qed.

Lemma suffixed_NoDup (name : string) (start len : nat) :
  NoDup (map (fun c => name ++ showNat c) (seq start len)).
Proof.
  apply Injective_map_NoDup; [|apply seq_NoDup].
  intros a b H. now apply showNat_inj, (append_inj_l name).
Qed.

(** What a lookup finds is a key of the record or an inherited name. *)
Lemma inObjectPrototype_inherited k :
  inObjectPrototype k = true -> In k inheritedNames.
Proof.
  unfold inObjectPrototype. intros H. apply existsb_exists in H.
  destruct H as [k' [Hin Heq]]. apply String.eqb_eq in Heq. subst k'.
  unfold inheritedNames. now do 4 right.
Qed.

Lemma lookupTruthy_cases variables k :
  lookupTruthy variables k = true ->
  Obj.has k variables = true \/ In k inheritedNames.
Proof.
  unfold lookupTruthy.
  destruct (String.eqb k protoKey) eqn:Ep.
  { intros _. right. apply String.eqb_eq in Ep. subst k.
    apply inObjectPrototype_inherited. reflexivity. }
  destruct (Obj.has k variables); [now left|].
  intros H. right.
  destruct (Obj.get protoKey variables) as [v|];
    [|now apply inObjectPrototype_inherited].
  unfold variableGives in H.
  destruct (String.eqb k "type") eqn:E1.
  { apply String.eqb_eq in E1. subst k. now left. }
  destruct (String.eqb k "name") eqn:E2.
  { apply String.eqb_eq in E2. subst k. right. now left. }
  destruct (String.eqb k "value") eqn:E3.
  { apply String.eqb_eq in E3. subst k. do 2 right. now left. }
  apply orb_true_iff in H. destruct H as [H|H].
  - apply String.eqb_eq in H. subst k. do 3 right. now left.
  - now apply inObjectPrototype_inherited.
Qed.

Lemma lookupTruthy_false variables k :
  lookupTruthy variables k = false ->
  Obj.has k variables = false /\ k <> protoKey.
Proof.
  unfold lookupTruthy.
  destruct (String.eqb k protoKey) eqn:Ep; [discriminate|].
  apply String.eqb_neq in Ep.
  destruct (Obj.has k variables); [discriminate|]. auto.
Qed.

Lemma lookupTruthy_objectPrototype variables k :
  In k objectPrototypeNames -> lookupTruthy variables k = true.
Proof.
  intros Hin.
  assert (Hp : inObjectPrototype k = true).
  { apply existsb_exists. exists k. split; [exact Hin | apply String.eqb_refl]. }
  unfold lookupTruthy.
  destruct (String.eqb k protoKey); [reflexivity|].
  destruct (Obj.has k variables); [reflexivity|].
  destruct (Obj.get protoKey variables) as [v|]; [|exact Hp].
  unfold variableGives. rewrite Hp, orb_true_r.
  destruct Hin as [<-|[<-|[<-|[<-|[<-|[<-|[<-|[<-|[<-|[<-|[<-|[<-|[]]]]]]]]]]]]];
    reflexivity.
Qed.

(** Among the counts of one more iteration than the record has entries
    and inherited names, one gives a name under which the record gives
    nothing. *)
Lemma some_count_free (variables : Obj.t GqlVariable) (name : string)
    (start : nat) :
  let bound := S (List.length variables + List.length inheritedNames) in
  exists c, start <= c < start + bound
            /\ lookupTruthy variables (name ++ showNat c) = false.
Proof.
  intros bound.
  destruct (forallb (fun c => lookupTruthy variables (name ++ showNat c))
              (seq start bound)) eqn:E.
  - exfalso. rewrite forallb_forall in E.
    assert (Hincl : incl (map (fun c => name ++ showNat c) (seq start bound))
                      (Obj.keys variables ++ inheritedNames)%list).
    { intros k Hk. apply in_map_iff in Hk. destruct Hk as [c [<- Hc]].
      apply in_or_app. destruct (lookupTruthy_cases variables _ (E c Hc)) as [H|H].
      - left. now apply has_in_keys.
      - now right. }
    apply NoDup_incl_length in Hincl; [|apply suffixed_NoDup].
    unfold Obj.keys in Hincl.
    rewrite length_app, !length_map, length_seq in Hincl.
    unfold bound in Hincl. lia.
  - apply not_true_iff_false in E. rewrite forallb_forall in E.
    destruct (existsb (fun c => negb (lookupTruthy variables (name ++ showNat c)))
                (seq start bound)) eqn:X.
    + apply existsb_exists in X. destruct X as [c [Hc Hfree]].
      apply in_seq in Hc. exists c. split; [lia|].
      now apply negb_true_iff in Hfree.
    + exfalso. apply E. intros c Hc.
      destruct (lookupTruthy variables (name ++ showNat c)) eqn:F; auto.
      assert (existsb (fun c => negb (lookupTruthy variables (name ++ showNat c)))
                (seq start bound) = true).
      { apply existsb_exists. exists c. now rewrite F. }
      congruence.
Qed.

Lemma nextCount_spec (variables : Obj.t GqlVariable) (name : string)
    (fuel count : nat) :
  (exists c, count <= c < count + fuel
             /\ lookupTruthy variables (name ++ showNat c) = false) ->
  let found := nextCount fuel variables name count in
  lookupTruthy variables (name ++ showNat found) = false
  /\ count <= found
  /\ forall c, count <= c < found ->
               lookupTruthy variables (name ++ showNat c) = true.
Proof.
  revert count. induction fuel as [|fuel IH]; intros count [c [Hc Hfree]].
  - lia.
  - simpl. destruct (lookupTruthy variables (name ++ showNat count)) eqn:E.
    + assert (Hne : c <> count) by (intros ->; congruence).
      destruct (IH (S count)) as (H1 & H2 & H3).
      { exists c. split; [lia | exact Hfree]. }
      split; [exact H1|]. split; [lia|].
      intros c' Hc'. destruct (Nat.eq_dec c' count) as [->|Hn]; auto.
      apply H3. lia.
    + split; [exact E|]. split; [lia|]. intros c' Hc'. lia.
Qed.

Lemma nextName_spec (variables : Obj.t GqlVariable) (name : string) :
  lookupTruthy variables (nextName variables name) = false
  /\ (lookupTruthy variables name = false -> nextName variables name = name)
  /\ (lookupTruthy variables name = true ->
      exists count, 1 <= count
        /\ nextName variables name = name ++ showNat count
        /\ forall c, 1 <= c < count ->
                     lookupTruthy variables (name ++ showNat c) = true).
Proof.
  unfold nextName. destruct (lookupTruthy variables name) eqn:E.
  - destruct (nextCount_spec variables name _ 1
                (some_count_free variables name 1)) as (H1 & H2 & H3).
    split; [exact H1|]. split; [discriminate|]. intros _.
    eexists. split; [exact H2|]. split; [reflexivity | exact H3].
  - split; [exact E|]. split; [reflexivity | discriminate].
Qed.

Lemma nextName_not_a_key (variables : Obj.t GqlVariable) (name : string) :
  Obj.has (nextName variables name) variables = false.
Proof. apply lookupTruthy_false, nextName_spec. Qed.

Lemma nextName_not_proto (variables : Obj.t GqlVariable) (name : string) :
  nextName variables name <> protoKey.
Proof. apply (lookupTruthy_false variables), nextName_spec. Qed.

(** X1.  The loop of [nextName] ends within the fuel it is given: under
    the name [nextName] returns the record gives nothing, neither a key
    of its own nor an inherited property.  That name is the argument name
    itself when the lookup of it gives nothing, and otherwise the argument
    name followed by the least count, from 1 on, under whose suffixed name
    the lookup gives nothing.  So an argument named like a property of
    [Object.prototype] is renamed even in an empty record. *)
Theorem nextName_returns_a_free_name
    (variables : Obj.t GqlVariable) (name : string) :
  lookupTruthy variables (nextName variables name) = false
  /\ Obj.has (nextName variables name) variables = false
  /\ (lookupTruthy variables name = false -> nextName variables name = name)
  /\ (lookupTruthy variables name = true ->
      exists count, 1 <= count
        /\ nextName variables name = name ++ showNat count
        /\ forall c, 1 <= c < count ->
                     lookupTruthy variables (name ++ showNat c) = true)
  /\ (In name objectPrototypeNames -> nextName variables name <> name).
Proof.
  destruct (nextName_spec variables name) as (H1 & H2 & H3).
  split; [exact H1|]. split; [apply nextName_not_a_key|].
  split; [exact H2|]. split; [exact H3|].
  intros Hin Heq. rewrite Heq in H1.
  rewrite (lookupTruthy_objectPrototype variables name Hin) in H1.
  discriminate.
Qed.

Lemma nextName_returns_a_free_name_witness :
  let variables :=
    [("id", newVariable "ID" None JNull); ("id1", newVariable "ID" None JNull)] in
  nextName variables "id" = "id2" /\ nextName variables "slug" = "slug"
  /\ nextName [] "constructor" = "constructor1"
  /\ nextName [] "toString" = "toString1"
  /\ Obj.has (nextName variables "id") variables = false.
Proof.
  intros variables.
  split; [reflexivity|]. split; [reflexivity|].
  split; [reflexivity|]. split; [reflexivity|].
  exact (proj1 (proj2 (nextName_returns_a_free_name variables "id"))).
Defined.

(** An implicitly named variable is added to the record of its level and
    overwrites nothing there. *)
Lemma extractArg_implicit variables name v :
  var_name v = None ->
  extractArg variables (name, ArgVar v)
  = (variables ++ [(nextName variables name, v)])%list.
Proof.
  intros H. simpl. rewrite H. apply set_fresh, nextName_not_a_key.
Qed.

Lemma fold_extractArg_implicit args variables :
  Forall (fun o => var_name (snd o) = None) (flat_map argVariable args) ->
  map snd (fold_left extractArg args variables)
  = (map snd variables ++ map snd (flat_map argVariable args))%list.
Proof.
  revert variables. induction args as [|[a [v|j]] rest IH];
    intros variables Hall; cbn [fold_left flat_map].
  - now rewrite app_nil_r.
  - unfold argVariable at 1 in Hall. cbn [snd fst app] in Hall.
    inversion Hall as [|? ? Hv Hrest]; subst. simpl in Hv.
    rewrite IH by assumption. rewrite extractArg_implicit by assumption.
    rewrite map_app. unfold argVariable at 2. cbn [snd fst map app].
    now rewrite <- app_assoc.
  - unfold argVariable at 1 in Hall. cbn [snd app] in Hall.
    rewrite IH by assumption. reflexivity.
Qed.

(** Implicitly named variables leave the prototype of the record alone. *)
Lemma fold_extractArg_implicit_proto args variables :
  Forall (fun o => var_name (snd o) = None) (flat_map argVariable args) ->
  Obj.has protoKey variables = false ->
  Obj.has protoKey (fold_left extractArg args variables) = false.
Proof.
  revert variables. induction args as [|[a [v|j]] rest IH];
    intros variables Hall Hno; cbn [fold_left flat_map].
  - exact Hno.
  - unfold argVariable at 1 in Hall. cbn [snd fst app] in Hall.
    inversion Hall as [|? ? Hv Hrest]; subst. simpl in Hv.
    apply IH; [assumption|]. cbn [extractArg]. rewrite Hv.
    unfold Obj.has in *. rewrite get_set_other; [exact Hno|].
    intros Heq. symmetry in Heq. now apply nextName_not_proto in Heq.
  - unfold argVariable at 1 in Hall. cbn [snd app] in Hall.
    now apply IH.
Qed.

Lemma collect_flat_implicit fields :
  forallb (fun e => match snd e with FSelection _ => false | _ => true end)
    fields = true ->
  Forall (fun o => var_name (snd o) = None) (visited fields) ->
  forall acc,
    map snd (fold_left (fun vars entry => extractEntry vars (snd entry))
               fields acc)
    = (map snd acc ++ map snd (visited fields))%list
    /\ (Obj.has protoKey acc = false ->
        Obj.has protoKey
          (fold_left (fun vars entry => extractEntry vars (snd entry))
             fields acc) = false).
Proof.
  unfold visited.
  induction fields as [|[f value] rest IH]; intros Hflat Hall acc;
    cbn [fold_left flat_map snd].
  - split; [now rewrite app_nil_r | auto].
  - cbn [forallb snd] in Hflat. apply andb_true_iff in Hflat.
    destruct Hflat as [Hv Hflat]. cbn [flat_map snd] in Hall.
    apply Forall_app in Hall. destruct Hall as [Hhere Hrest].
    destruct (IH Hflat Hrest (extractEntry acc value)) as [IH1 IH2].
    assert (Hstep :
      map snd (extractEntry acc value)
      = (map snd acc ++ map snd (visitedIn value))%list
      /\ (Obj.has protoKey acc = false ->
          Obj.has protoKey (extractEntry acc value) = false)).
    { destruct value as [b| | |args sub|sub]; try discriminate;
        cbn [extractEntry visitedIn map]; try (now rewrite app_nil_r).
      split; [now apply fold_extractArg_implicit|].
      now apply fold_extractArg_implicit_proto. }
    destruct Hstep as [S1 S2]. split.
    + rewrite IH1, S1, map_app, app_assoc. reflexivity.
    + intros Hno. apply IH2, S2, Hno.
Qed.

(** X2.  Within one selection object none of whose entries is a nested
    selection, every variable that is left to take the name of its
    argument is kept: the values of the extraction are the visited
    variables, in the order of the visit, under pairwise distinct names. *)
Theorem implicit_names_kept_within_one_selection (fields : FieldSelection) :
  forallb (fun e => match snd e with FSelection _ => false | _ => true end)
    fields = true ->
  Forall (fun o => var_name (snd o) = None) (visited fields) ->
  map snd (extractVariables fields false) = map snd (visited fields)
  /\ NoDup (Obj.keys (extractVariables fields false)).
Proof.
  intros Hflat Hall. split; [|apply NoDup_keys_extractVariables].
  destruct (collect_flat_implicit fields Hflat Hall []) as [Hvalues Hproto].
  rewrite extractVariables_false, ownEntries_id by (apply Hproto; reflexivity).
  exact Hvalues.
Qed.

Lemma implicit_names_kept_within_one_selection_witness :
  let first := newVariable "ID" None (JStr "1") in
  let second := newVariable "ID" None (JStr "2") in
  let third := newVariable "ID" None JNull in
  let fields :=
    [("a", Call [("id", ArgVar first)] None);
     ("b", Call [("id", ArgVar second); ("limit", ArgLit (JNum 3))] None);
     ("flag", FBool true);
     ("c", Call [("id", ArgVar third)] None)] in
  extractVariables fields false
  = [("id", first); ("id1", second); ("id2", third)]
  /\ map snd (extractVariables fields false) = [first; second; third].
Proof.
  intros first second third fields. split; [reflexivity|].
  refine (proj1 (implicit_names_kept_within_one_selection fields eq_refl _)).
  repeat constructor.
Defined.

(** C3 (the code departs from it).  Two variables that are both left to
    take the name of their argument, [id]: when the two field calls are
    entries of the same selection object the second is renamed [id1] and
    both are kept; when the second call stands in a nested selection, the
    nested extraction starts from an empty record, names it [id] as well,
    and [Object.assign] overwrites the first; when the second call stands
    in the sub-selection of the first call it is not visited at all.  The
    body refers to both variables as [$id] in each case. *)
Theorem implicit_names_across_levels
    (type1 type2 : string) (value1 value2 : JSValue) :
  let v1 := Var {| opt_type := type1; opt_name := None; opt_value := value1 |} in
  let v2 := Var {| opt_type := type2; opt_name := None; opt_value := value2 |} in
  extractVariables
    [("a", Call [("id", ArgVar v1)] None);
     ("b", Call [("id", ArgVar v2)] None)] false
  = [("id", v1); ("id1", v2)]
  /\ extractVariables
       [("a", Call [("id", ArgVar v1)] None);
        ("b", FSelection [("c", Call [("id", ArgVar v2)] None)])] false
     = [("id", v2)]
  /\ extractVariables
       [("a", Call [("id", ArgVar v1)]
                (Some [("c", Call [("id", ArgVar v2)] None)]))] false
     = [("id", v1)]
  /\ compileFieldSelection
       [("a", Call [("id", ArgVar v1)] None);
        ("b", FSelection [("c", Call [("id", ArgVar v2)] None)])] false
     = Return ["  a(id: $id)"; "  b {"; "    c(id: $id)"; "  }"]
  /\ compileFieldSelection
       [("a", Call [("id", ArgVar v1)] None);
        ("b", Call [("id", ArgVar v2)] None)] false
     = Return ["  a(id: $id)"; "  b(id: $id)"].
Proof. intros v1 v2. repeat split; reflexivity. Qed.

(** ** Who writes a key of the extraction map *)

Lemma prefix_append (a s : string) : String.prefix a (a ++ s) = true.
Proof.
  induction a as [|c a IH]; simpl.
  - now destruct s.
  - destruct (ascii_dec c c); [exact IH | congruence].
Qed.

Lemma prefix_nextName variables name :
  String.prefix name (nextName variables name) = true.
Proof.
  unfold nextName. destruct (lookupTruthy variables name).
  - apply prefix_append.
  - rewrite <- (append_nil_r name) at 2. apply prefix_append.
Qed.

Lemma has_set_keeps {V : Type} (k k' : string) (v : V) (o : Obj.t V) :
  Obj.has k o = true -> Obj.has k (Obj.set k' v o) = true.
Proof.
  intros H. apply has_in_keys. rewrite keys_set. apply has_in_keys in H.
  destruct (Obj.has k' o); [exact H | apply in_or_app; now left].
Qed.

Lemma has_assign_keeps {V : Type} (k : string) (target source : Obj.t V) :
  Obj.has k target = true -> Obj.has k (Obj.assign target source) = true.
Proof.
  unfold Obj.assign. revert target.
  induction source as [|[k0 v0] rest IH]; simpl; auto.
  intros target H. apply IH. now apply has_set_keeps.
Qed.

Lemma get_assign {V : Type} (k : string) (target source : Obj.t V) :
  NoDup (Obj.keys source) ->
  Obj.get k (Obj.assign target source)
  = match Obj.get k source with
    | Some v => Some v
    | None => Obj.get k target
    end.
Proof.
  unfold Obj.assign. revert target.
  induction source as [|[k0 v0] rest IH]; simpl; auto.
  intros target Hnd. inversion Hnd as [|? ? Hnotin Hnd']; subst.
  rewrite IH by assumption.
  destruct (String.eqb k k0) eqn:E.
  - apply String.eqb_eq in E. subst k0.
    apply get_none_not_in in Hnotin. rewrite Hnotin.
    apply get_set_same.
  - apply String.eqb_neq in E. now rewrite get_set_other.
Qed.

Lemma get_filter {V : Type} (p : string * V -> bool) (k : string) (o : Obj.t V) :
  NoDup (Obj.keys o) ->
  Obj.get k (filter p o)
  = match Obj.get k o with
    | Some v => if p (k, v) then Some v else None
    | None => None
    end.
Proof.
  induction o as [|[k0 v0] rest IH]; simpl; auto.
  intros Hnd. inversion Hnd as [|? ? Hnotin Hnd']; subst.
  destruct (String.eqb k k0) eqn:E.
  - apply String.eqb_eq in E. subst k0.
    destruct (p (k, v0)); simpl.
    + now rewrite String.eqb_refl.
    + apply get_none_not_in. intros Hin. apply Hnotin.
      unfold Obj.keys in *. apply in_map_iff in Hin.
      destruct Hin as [e [He Hf]]. apply filter_In in Hf.
      rewrite <- He. apply in_map. tauto.
  - destruct (p (k0, v0)); simpl; [rewrite E|]; auto.
Qed.

Lemma get_ownEntries (k : string) (variables : Obj.t GqlVariable) :
  NoDup (Obj.keys variables) ->
  Obj.get k (ownEntries variables)
  = if String.eqb k protoKey then None else Obj.get k variables.
Proof.
  intros Hnd. unfold ownEntries. rewrite get_filter by assumption. simpl.
  destruct (Obj.get k variables), (String.eqb k protoKey); reflexivity.
Qed.

Section FoldWrites.
Context {A : Type}.
Variable step : Obj.t GqlVariable -> A -> Obj.t GqlVariable.
Variable occ : A -> list (string * GqlVariable).

Lemma Provenance_fold (items : list A) :
  Forall (fun a => Provenance (fun vars => step vars a) (occ a)) items ->
  Provenance (fun vars => fold_left step items vars) (flat_map occ items).
Proof.
  induction 1 as [|a rest Ha _ IH]; intros variables k v; simpl.
  - now left.
  - intros H. destruct (IH _ _ _ H) as [H'|(x & Hx & Hm)].
    + destruct (Ha _ _ _ H') as [H''|(x & Hx & Hm)]; [now left|].
      right. exists x. split; [apply in_or_app; now left | exact Hm].
    + right. exists x. split; [apply in_or_app; now right | exact Hm].
Qed.

Lemma Persistence_fold (items : list A) :
  Forall (fun a => Persistence (fun vars => step vars a)) items ->
  Persistence (fun vars => fold_left step items vars).
Proof.
  induction 1 as [|a rest Ha _ IH]; intros variables k; simpl; auto.
Qed.

Lemma LastWrite_fold (items : list A) :
  Forall (fun a => Provenance (fun vars => step vars a) (occ a)) items ->
  Forall (fun a => Persistence (fun vars => step vars a)) items ->
  Forall (fun a => LastWrite (fun vars => step vars a) (occ a)) items ->
  LastWrite (fun vars => fold_left step items vars) (flat_map occ items).
Proof.
  intros Hprov Hpers Hlast. revert Hprov Hpers.
  induction Hlast as [|a rest Ha _ IH]; intros Hprov Hpers
    variables name before a2 v2 after Hsplit Hname Hne; simpl in *.
  - now destruct before.
  - inversion Hprov as [|? ? _ Hprov']; subst.
    inversion Hpers as [|? ? _ Hpers']; subst.
    assert (Hcase :
      (exists after1, occ a = (before ++ (a2, v2) :: after1)%list
                      /\ after = (after1 ++ flat_map occ rest)%list)
      \/ (exists before', flat_map occ rest
                          = (before' ++ (a2, v2) :: after)%list)).
    { apply app_eq_app in Hsplit. destruct Hsplit as [l [[H1 H2]|[H1 H2]]].
      - destruct l as [|x l].
        + right. exists []. simpl in *. now symmetry.
        + injection H2 as -> ->. left. exists l. now rewrite H1.
      - right. exists l. exact H2. }
    destruct Hcase as [(after1 & Hocc & Hafter)|(before' & Hrest)].
    + destruct (Ha variables name before a2 v2 after1 Hocc Hname Hne)
        as (x & v & Hget & Hin & Hm).
      assert (Hhas : Obj.has name (fold_left step rest (step variables a)) = true).
      { apply (Persistence_fold rest Hpers'). unfold Obj.has. now rewrite Hget. }
      unfold Obj.has in Hhas.
      destruct (Obj.get name (fold_left step rest (step variables a)))
        as [v'|] eqn:Hfinal; [|discriminate].
      destruct (Provenance_fold rest Hprov' _ _ _ Hfinal)
        as [Hsame|(x' & Hx' & Hm')].
      * assert (v' = v) by congruence. subst v'.
        exists x, v. split; [reflexivity|]. split; [|exact Hm].
        subst after. destruct Hin as [Hin|Hin]; [now left|].
        right. apply in_or_app. now left.
      * exists x', v'. split; [reflexivity|]. split; [|exact Hm'].
        right. subst after. apply in_or_app. now right.
    + now apply (IH Hprov' Hpers' (step variables a) name before').
Qed.
End FoldWrites.

Lemma extractArg_provenance entry :
  Provenance (fun vars => extractArg vars entry) (argVariable entry).
Proof.
  intros variables k v'. destruct entry as [a [v|j]]; simpl; [|now left].
  set (key := match var_name v with
              | Some explicit => explicit
              | None => nextName variables a
              end).
  destruct (string_dec k key) as [->|Hne].
  - rewrite get_set_same. intros [= <-]. right. exists a.
    split; [now left|]. unfold mayTake, key. simpl.
    destruct (var_name v); [apply String.eqb_refl | apply prefix_nextName].
  - rewrite get_set_other by assumption. now left.
Qed.

Lemma extractArg_persistence entry :
  Persistence (fun vars => extractArg vars entry).
Proof.
  intros variables k H. destruct entry as [a [v|j]]; simpl; auto.
  now apply has_set_keeps.
Qed.

Lemma extractArg_lastWrite entry :
  LastWrite (fun vars => extractArg vars entry) (argVariable entry).
Proof.
  intros variables name before a2 v2 after Hsplit Hname _.
  destruct entry as [a [v|j]]; unfold argVariable in Hsplit; simpl in Hsplit.
  - destruct before as [|b before]; [|now destruct before].
    injection Hsplit as <- <- <-. exists a, v. simpl. rewrite Hname.
    split; [apply get_set_same|]. split; [now left|].
    unfold mayTake. simpl. rewrite Hname. apply String.eqb_refl.
  - now destruct before.
Qed.

Lemma extractEntry_writes value :
  Provenance (fun vars => extractEntry vars value) (visitedIn value)
  /\ Persistence (fun vars => extractEntry vars value)
  /\ LastWrite (fun vars => extractEntry vars value) (visitedIn value).
Proof.
  induction value as [b| | |args subselection _|fields IH]
    using FieldValue_nested_ind.
  1-3: (split; [|split];
        [ intros variables k v H; now left
        | intros variables k H; exact H
        | intros variables name before a2 v2 after Hsplit; now destruct before ]).
  - simpl. split; [|split].
    + apply Provenance_fold, Forall_forall. intros e _.
      apply extractArg_provenance.
    + apply Persistence_fold, Forall_forall. intros e _.
      apply extractArg_persistence.
    + apply LastWrite_fold; apply Forall_forall; intros e _.
      * apply extractArg_provenance.
      * apply extractArg_persistence.
      * apply extractArg_lastWrite.
  - assert (Hprov : Forall (fun e => Provenance
                              (fun vars => extractEntry vars (snd e))
                              (visitedIn (snd e))) fields)
      by (eapply Forall_impl; [|exact IH]; intros e He; apply He).
    assert (Hpers : Forall (fun e => Persistence
                              (fun vars => extractEntry vars (snd e))) fields)
      by (eapply Forall_impl; [|exact IH]; intros e He; apply He).
    assert (Hlast : Forall (fun e => LastWrite
                              (fun vars => extractEntry vars (snd e))
                              (visitedIn (snd e))) fields)
      by (eapply Forall_impl; [|exact IH]; intros e He; apply He).
    pose proof (Provenance_fold
                  (fun vars e => extractEntry vars (snd e))
                  (fun e => visitedIn (snd e)) fields Hprov) as Pf.
    pose proof (LastWrite_fold
                  (fun vars e => extractEntry vars (snd e))
                  (fun e => visitedIn (snd e)) fields Hprov Hpers Hlast) as Lf.
    simpl. fold (collect fields).
    split; [|split].
    + intros variables k v.
      rewrite get_assign
        by apply NoDup_keys_ownEntries, NoDup_keys_collect.
      rewrite get_ownEntries by apply NoDup_keys_collect.
      destruct (String.eqb k protoKey); [now left|].
      destruct (Obj.get k (collect fields)) as [w|] eqn:Hsrc; [|now left].
      intros [= ->]. destruct (Pf [] k v Hsrc) as [H|H]; [discriminate|].
      now right.
    + intros variables k. apply has_assign_keeps.
    + intros variables name before a2 v2 after Hsplit Hname Hne.
      destruct (Lf [] name before a2 v2 after Hsplit Hname Hne)
        as (a & v & Hget & Hin & Hm).
      exists a, v. split; [|now split].
      rewrite get_assign
        by apply NoDup_keys_ownEntries, NoDup_keys_collect.
      rewrite get_ownEntries by apply NoDup_keys_collect.
      apply String.eqb_neq in Hne. rewrite Hne.
      fold (collect fields) in Hget. now rewrite Hget.
Qed.

Lemma collect_provenance fields k v :
  Obj.get k (collect fields) = Some v ->
  exists a, In (a, v) (visited fields) /\ mayTake k (a, v) = true.
Proof.
  intros H.
  destruct (Provenance_fold
              (fun vars e => extractEntry vars (snd e))
              (fun e => visitedIn (snd e)) fields) with (2 := H)
    as [Hnil|Hocc].
  - apply Forall_forall. intros e _. apply extractEntry_writes.
  - discriminate.
  - exact Hocc.
Qed.


Lemma extractVariables_in_collect fields only k v :
  In (k, v) (extractVariables fields only) ->
  Obj.get k (collect fields) = Some v.
Proof.
  intros H. apply in_get; [apply NoDup_keys_collect|].
  assert (H' : In (k, v) (extractVariables fields false)).
  { destruct only; [|exact H].
    rewrite extractVariables_true in H. now apply filter_In in H. }
  rewrite extractVariables_false in H'. now apply ownEntries_in in H'.
Qed.

Lemma extractVariables_not_proto fields only k v :
  In (k, v) (extractVariables fields only) -> k <> protoKey.
Proof.
  intros H.
  assert (H' : In (k, v) (extractVariables fields false)).
  { destruct only; [|exact H].
    rewrite extractVariables_true in H. now apply filter_In in H. }
  rewrite extractVariables_false in H'. now apply ownEntries_in in H'.
Qed.





(* ================================================================== *)
(** * The [useAction] hook *)

Module UseActionFacts.
Import UseAction Samples.

(** ** [processResult] *)

Lemma walk_undefined path : walk JUndefined path = JUndefined.
Proof. destruct path; reflexivity. Qed.

Lemma get_object_truthy object path props :
  get object path = JObj props -> truthy object = true.
Proof.
  destruct path as [|key rest]; [discriminate|]. simpl.
  destruct object; simpl; try discriminate; try reflexivity;
    now rewrite walk_undefined.
Qed.

(** C6, as amended.  Let the payload hold an object under the mutation
    result field.  If that object has an [errors] array that starts with an
    error object, the processed result has [data] equal to [null] and the
    structured error built from these errors.  If it reports no errors,
    the error of the processed result is the wrapped transport error, none
    when the response carries none, and [data] is the hydrated record when
    the action has no return type and the raw [result] value when it has
    one. *)
Theorem processResult_outcomes
    (result : MutationState) (action : ActionFunction)
    (mutationData : Obj.t JSValue) :
  get (data result) (dataPath action) = JObj mutationData ->
  let processed := processResult result action in
  (forall firstError rest,
      Obj.get "errors" mutationData = Some (JArr (JObj firstError :: rest)) ->
      state_data processed = DataNull
      /\ state_error processed
         = Some (forErrorsResponse (JArr (JObj firstError :: rest))
                   (responseOf (forMaybeCombinedError (error result)))))
  /\ (reportsErrors (JObj mutationData) = false ->
      state_error processed = forMaybeCombinedError (error result)
      /\ (error result = None -> state_error processed = None)
      /\ state_data processed
         = if hasReturnType action
           then DataValue (prop (JObj mutationData) "result")
           else DataRecord
                  (hydrateRecord result
                     (prop (JObj mutationData) (modelSelectionField action)))).
Proof.
  intros Hget processed. subst processed. unfold processResult.
  rewrite (get_object_truthy _ _ _ Hget), Hget. cbn [truthy]. split.
  - intros firstError rest Herrors.
    assert (Hrep : reportsErrors (JObj mutationData) = true).
    { unfold reportsErrors, prop. now rewrite Herrors. }
    rewrite Hrep. unfold prop. rewrite Herrors. now split.
  - intros Hrep. rewrite Hrep. cbn. split; [reflexivity|]. split.
    + now intros ->.
    + reflexivity.
Qed.

Lemma processResult_outcomes_witness :
  let failed :=
    sampleResponse
      [("success", JBool false);
       ("errors", JArr [JObj [("message", JStr "Title is required")]]);
       ("post", JNull)] in
  let succeeded :=
    sampleResponse
      [("success", JBool true); ("errors", JNull);
       ("post", JObj [("id", JStr "1")])] in
  (state_data (processResult failed (sampleAction false false)) = DataNull
   /\ state_error (processResult failed (sampleAction false false))
      = Some (forErrorsResponse
                (JArr [JObj [("message", JStr "Title is required")]]) None))
  /\ (state_error (processResult succeeded (sampleAction false false)) = None
      /\ state_data (processResult succeeded (sampleAction false false))
         = DataRecord (hydrateRecord succeeded (JObj [("id", JStr "1")]))).
Proof.
  intros failed succeeded. split.
  - exact (proj1 (processResult_outcomes failed (sampleAction false false) _ eq_refl)
             _ _ eq_refl).
  - destruct (proj2 (processResult_outcomes succeeded (sampleAction false false)
                       _ eq_refl) eq_refl) as (_ & H2 & H3).
    split; [exact (H2 eq_refl) | exact H3].
Defined.

(** C6, as stated, fails: for an action with a return type the processed
    result of a direct response carries the raw [result] value, which is
    no hydrated record. *)
Lemma processResult_return_type_not_hydrated :
  let direct :=
    sampleResponse [("success", JBool true); ("result", JNum 5)] in
  let processed := processResult direct (sampleAction true false) in
  state_error processed = None
  /\ state_data processed = DataValue (JNum 5)
  /\ forall record, state_data processed <> DataRecord record.
Proof.
  intros direct processed. split; [reflexivity|]. split; [reflexivity|].
  intros record. discriminate.
Qed.

(** ** The guard on the variables *)

Lemma rejects_iff action vars :
  rejects action vars = true
  <-> hasAmbiguousIdentifier action = true
      /\ exists key, In key (Obj.keys vars)
                     /\ isParamOnly action key = false
                     /\ key <> modelApiIdentifier action.
Proof.
  unfold rejects. rewrite andb_true_iff, existsb_exists.
  unfold unexpectedKey. split.
  - intros [H (key & Hin & Hk)]. split; [exact H|]. exists key.
    apply andb_true_iff in Hk. destruct Hk as [H1 H2].
    apply negb_true_iff in H1, H2. apply String.eqb_neq in H2. auto.
  - intros [H (key & Hin & H1 & H2)]. split; [exact H|]. exists key.
    split; [exact Hin|]. rewrite H1. apply String.eqb_neq in H2.
    now rewrite H2.
Qed.

(** C7, as amended.  For an action whose descriptor has the
    ambiguous-identifier flag, a call whose variables hold a top-level key
    that is neither a declared param-only variable nor the model
    identifier ends with the error of line 276 and dispatches nothing. *)
Theorem ambiguous_identifier_rejects_unexpected_keys
    (env : Collaborators) (action : ActionFunction)
    (vars : Obj.t JSValue) (context : option OperationContext)
    (key : string) :
  hasAmbiguousIdentifier action = true ->
  In key (Obj.keys vars) ->
  isParamOnly action key = false ->
  key <> modelApiIdentifier action ->
  runAction env action (Some vars) context
  = {| dispatched := []; outcome := Throw (invalidArguments action) |}.
Proof.
  intros Hflag Hin Hparam Hmodel. unfold runAction.
  assert (H : rejects action vars = true) by (apply rejects_iff; eauto).
  now rewrite H.
Qed.

Lemma ambiguous_identifier_rejects_unexpected_keys_witness :
  runAction sampleEnv (sampleAction false true)
    (Some [("title", JStr "Hello")]) None
  = {| dispatched := [];
       outcome := Throw (invalidArguments (sampleAction false true)) |}.
Proof.
  apply (ambiguous_identifier_rejects_unexpected_keys
           sampleEnv (sampleAction false true) [("title", JStr "Hello")]
           None "title").
  - reflexivity.
  - simpl. now left.
  - reflexivity.
  - discriminate.
Defined.

(** C7, as stated, fails: an action that accepts model input but has no
    ambiguous identifier takes a key that is neither param-only nor the
    model identifier for a field of the model, and dispatches. *)
Lemma model_input_without_ambiguity_dispatches :
  let action := sampleAction false false in
  let run := runAction sampleEnv action (Some [("title", JStr "Hello")]) None in
  acceptsModelInput action = true
  /\ In "title" (Obj.keys [("title", JStr "Hello")])
  /\ isParamOnly action "title" = false
  /\ "title" <> modelApiIdentifier action
  /\ map fst (dispatched run) = [[("post", JObj [("title", JStr "Hello")])]]
  /\ returns (outcome run) = true.
Proof.
  intros action run. repeat split; try reflexivity.
  - simpl. now left.
  - discriminate.
Qed.

(** ** The mapping of the variables *)

Lemma idVariable_key action entry :
  idVariable action = Some entry -> fst entry = "id".
Proof.
  unfold idVariable. intros H. apply find_some in H. destruct H as [_ H].
  apply andb_true_iff in H. destruct H as [H _]. now apply String.eqb_eq.
Qed.

(** The [id] variable is the key [id] of an action that declares a
    variable [id] of type [GadgetID]. *)
Lemma isIdVariable_spec action key :
  isIdVariable action key = true
  <-> key = "id"
      /\ exists descriptor,
           In ("id", descriptor) (variables action)
           /\ type descriptor = "GadgetID".
Proof.
  unfold isIdVariable. split.
  - destruct (idVariable action) as [[k d]|] eqn:E; [|discriminate].
    intros H. apply String.eqb_eq in H. simpl in H. subst key.
    pose proof (idVariable_key _ _ E) as Hk. simpl in Hk. subst k.
    split; [reflexivity|]. exists d. unfold idVariable in E.
    apply find_some in E. destruct E as [Hin Hd]. split; [exact Hin|].
    apply andb_true_iff in Hd. destruct Hd as [_ Hd]. now apply String.eqb_eq.
  - intros [-> (d & Hin & Hd)].
    destruct (idVariable action) as [e|] eqn:E.
    + apply String.eqb_eq. symmetry. now apply (idVariable_key action).
    + exfalso. unfold idVariable in E.
      apply (find_none _ _ E) in Hin. simpl in Hin. rewrite Hd in Hin.
      discriminate.
Qed.

Lemma wrapEntry_step action (nested top : Obj.t JSValue) k v :
  keptAtTopLevel action (modelApiIdentifier action) = false ->
  ~ In k (Obj.keys nested) -> ~ In k (Obj.keys top) ->
  wrapEntry action
    (Return ((modelApiIdentifier action, JObj nested) :: top)) (k, v)
  = if keptAtTopLevel action k
    then Return ((modelApiIdentifier action, JObj nested)
                   :: (top ++ [(k, v)])%list)
    else Return ((modelApiIdentifier action, JObj (nested ++ [(k, v)])%list)
                   :: top).
Proof.
  intros Hmodel Hn Ht.
  assert (Hkept : keptAtTopLevel action k = true ->
            Obj.set k v ((modelApiIdentifier action, JObj nested) :: top)
            = (modelApiIdentifier action, JObj nested) :: (top ++ [(k, v)])%list).
  { intros Hk. simpl.
    destruct (String.eqb k (modelApiIdentifier action)) eqn:E.
    - apply String.eqb_eq in E. subst k. congruence.
    - f_equal. apply set_fresh. apply not_true_is_false.
      intros Hhas. now apply has_in_keys in Hhas. }
  unfold wrapEntry. cbn [bindExc].
  destruct (keptAtTopLevel action k) eqn:Hk.
  - specialize (Hkept eq_refl). unfold keptAtTopLevel in Hk.
    destruct (isParamOnly action k) eqn:Hp; [now rewrite Hkept|].
    simpl in Hk. rewrite Hk.
    assert (k = "id") by (now apply isIdVariable_spec in Hk). subst k.
    now rewrite Hkept.
  - unfold keptAtTopLevel in Hk. apply orb_false_iff in Hk.
    destruct Hk as [Hp Hi]. rewrite Hp, Hi.
    unfold setNested. cbn [Obj.get]. rewrite String.eqb_refl.
    cbn [Obj.set]. rewrite String.eqb_refl.
    rewrite (set_fresh k v nested); [reflexivity|].
    apply not_true_is_false. intros Hhas. now apply has_in_keys in Hhas.
Qed.

Lemma wrap_fold action (entries nested top : Obj.t JSValue) :
  keptAtTopLevel action (modelApiIdentifier action) = false ->
  NoDup (Obj.keys entries) ->
  Forall (fun k => ~ In k (Obj.keys nested) /\ ~ In k (Obj.keys top))
    (Obj.keys entries) ->
  fold_left (wrapEntry action) entries
    (Return ((modelApiIdentifier action, JObj nested) :: top))
  = Return
      ((modelApiIdentifier action,
        JObj (nested
                ++ filter (fun e => negb (keptAtTopLevel action (fst e)))
                     entries)%list)
         :: (top ++ filter (fun e => keptAtTopLevel action (fst e)) entries)%list).
Proof.
  intros Hmodel. revert nested top.
  induction entries as [|[k v] rest IH]; intros nested top Hnd Hfresh.
  - simpl. now rewrite !app_nil_r.
  - simpl in Hnd, Hfresh. inversion Hnd as [|? ? Hnotin Hnd']; subst.
    inversion Hfresh as [|? ? [Hn Ht] Hfresh']; subst.
    cbn [fold_left filter fst]. rewrite wrapEntry_step by assumption.
    rewrite Forall_forall in Hfresh'.
    destruct (keptAtTopLevel action k); cbn [negb].
    + rewrite IH; auto.
      * now rewrite <- app_assoc.
      * apply Forall_forall. intros x Hx.
        destruct (Hfresh' x Hx) as [H1 H2]. split; [exact H1|].
        unfold Obj.keys. rewrite map_app. intros Hin.
        apply in_app_or in Hin. destruct Hin as [Hin|[<-|[]]]; auto.
    + rewrite IH; auto.
      * now rewrite <- app_assoc.
      * apply Forall_forall. intros x Hx.
        destruct (Hfresh' x Hx) as [H1 H2]. split; [|exact H2].
        unfold Obj.keys. rewrite map_app. intros Hin.
        apply in_app_or in Hin. destruct Hin as [Hin|[<-|[]]]; auto.
Qed.

(** C8, as amended.  For an action that accepts model input, a call that
    the guard of C7 does not reject sends: the variables unchanged when
    they hold an object under the model identifier; and otherwise the
    model identifier bound to the object of the field values, that is of
    all entries but the declared param-only variables and the
    [GadgetID]-typed [id] variable, followed by these, which stay at top
    level.  (The keys of a variables object are pairwise distinct, and the
    model identifier of a descriptor is none of its top-level keys.) *)
Theorem model_input_variables_are_wrapped
    (env : Collaborators) (action : ActionFunction)
    (vars : Obj.t JSValue) (context : option OperationContext) :
  acceptsModelInput action = true ->
  rejects action vars = false ->
  NoDup (Obj.keys vars) ->
  keptAtTopLevel action (modelApiIdentifier action) = false ->
  let sent :=
    if alreadyNested action vars then vars
    else
      (modelApiIdentifier action,
       JObj (filter (fun e => negb (keptAtTopLevel action (fst e))) vars))
        :: filter (fun e => keptAtTopLevel action (fst e)) vars in
  mapVariables action vars = Return sent
  /\ dispatched (runAction env action (Some vars) context)
     = [(sent, mutationContext env action context)]
  /\ returns (outcome (runAction env action (Some vars) context)) = true.
Proof.
  intros Haccepts Hguard Hnd Hmodel sent.
  assert (Hmap : mapVariables action vars = Return sent).
  { unfold mapVariables, sent. rewrite Haccepts. cbn [orb].
    destruct (alreadyNested action vars); [reflexivity|].
    rewrite (wrap_fold action vars [] []); auto.
    apply Forall_forall. intros k _. simpl. tauto. }
  split; [exact Hmap|].
  unfold runAction. rewrite Hguard, Hmap. now split.
Qed.

Lemma model_input_variables_are_wrapped_witness :
  let action := sampleAction false false in
  mapVariables action
    [("id", JStr "7"); ("title", JStr "Hello"); ("notify", JBool true);
     ("body", JStr "First post")]
  = Return [("post", JObj [("title", JStr "Hello");
                           ("body", JStr "First post")]);
            ("id", JStr "7"); ("notify", JBool true)]
  /\ mapVariables action
       [("post", JObj [("title", JStr "Hello")]); ("notify", JBool true)]
     = Return [("post", JObj [("title", JStr "Hello")]); ("notify", JBool true)].
Proof.
  intros action. split.
  - refine (proj1 (model_input_variables_are_wrapped sampleEnv action
                     [("id", JStr "7"); ("title", JStr "Hello");
                      ("notify", JBool true); ("body", JStr "First post")]
                     None eq_refl eq_refl _ eq_refl)).
    repeat constructor; simpl; intuition discriminate.
  - refine (proj1 (model_input_variables_are_wrapped sampleEnv action
                     [("post", JObj [("title", JStr "Hello")]);
                      ("notify", JBool true)]
                     None eq_refl eq_refl _ eq_refl)).
    repeat constructor; simpl; intuition discriminate.
Defined.

(** C8, as stated, fails: when the action also has an ambiguous
    identifier, flat variables are not wrapped: the call is rejected and
    nothing is dispatched. *)
Lemma model_input_with_ambiguity_is_rejected :
  let action := sampleAction false true in
  let run := runAction sampleEnv action (Some [("title", JStr "Hello")]) None in
  acceptsModelInput action = true
  /\ alreadyNested action [("title", JStr "Hello")] = false
  /\ dispatched run = []
  /\ outcome run = Throw (invalidArguments action).
Proof. intros action run. repeat split. Qed.

End UseActionFacts.

(* ================================================================== *)
(** * Further properties of the query compiler *)

(** ** The flag changes nothing when every variable has a value *)

Lemma filter_all {A : Type} (p : A -> bool) (l : list A) :
  forallb p l = true -> filter p l = l.
Proof. apply forallb_filter_id. Qed.

Lemma map_id_on {A : Type} (f : A -> A) (l : list A) :
  Forall (fun a => f a = a) l -> map f l = l.
Proof. induction 1 as [|a rest Ha _ IH]; simpl; congruence. Qed.

Lemma pruneValue_present value :
  everyVariablePresent value = true -> pruneValue value = value.
Proof.
  induction value as [b| | |args subselection IH|fields IH]
    using FieldValue_nested_ind; intros H; try reflexivity.
  - cbn [everyVariablePresent] in H. apply andb_true_iff in H.
    destruct H as [Hargs Hsub]. cbn [pruneValue].
    rewrite (filter_all _ _ Hargs). f_equal.
    destruct subselection as [sub|]; [|reflexivity]. f_equal.
    apply map_id_on. specialize (IH sub eq_refl).
    rewrite forallb_forall in Hsub. rewrite Forall_forall in IH |- *.
    intros [f v] Hin. simpl. f_equal. apply (IH _ Hin), (Hsub _ Hin).
  - cbn [everyVariablePresent] in H. cbn [pruneValue]. f_equal.
    apply map_id_on. rewrite forallb_forall in H.
    rewrite Forall_forall in IH |- *.
    intros [f v] Hin. simpl. f_equal. apply (IH _ Hin), (H _ Hin).
Qed.

Lemma pruneAbsent_present fields :
  allPresent fields = true -> pruneAbsent fields = fields.
Proof.
  intros H. unfold pruneAbsent. apply map_id_on, Forall_forall.
  intros [f v] Hin. simpl. f_equal. apply pruneValue_present.
  unfold allPresent in H. rewrite forallb_forall in H. apply (H _ Hin).
Qed.

Lemma visitedIn_present value o :
  everyVariablePresent value = true -> In o (visitedIn value) ->
  present (snd o) = true.
Proof.
  induction value as [b| | |args subselection _|fields IH]
    using FieldValue_nested_ind; cbn [visitedIn everyVariablePresent];
    try (intros _ []).
  - intros H Hin. apply andb_true_iff in H. destruct H as [Hargs _].
    apply in_flat_map in Hin. destruct Hin as [[a value] [Hin Ho]].
    rewrite forallb_forall in Hargs. specialize (Hargs _ Hin).
    unfold argVariable in Ho. simpl in Ho, Hargs.
    destruct value as [v|j]; [|destruct Ho].
    destruct Ho as [<-|[]]. exact Hargs.
  - intros H Hin. apply in_flat_map in Hin. destruct Hin as [e [He Ho]].
    rewrite forallb_forall in H. rewrite Forall_forall in IH.
    exact (IH e He (H e He) Ho).
Qed.

Lemma visited_present fields o :
  allPresent fields = true -> In o (visited fields) -> present (snd o) = true.
Proof.
  intros H Hin. apply in_flat_map in Hin. destruct Hin as [e [He Ho]].
  unfold allPresent in H. rewrite forallb_forall in H.
  exact (visitedIn_present _ _ (H e He) Ho).
Qed.

(** X4.  When every [Variable] of the selection has a value, the flag
    [onlyPresentVariableValues] changes nothing: the extraction, the
    signature and the compiled document are the same with the flag on and
    with the flag off. *)
Theorem flag_is_irrelevant_when_every_variable_is_present
    (operation : BuilderOperation) :
  allPresent (op_fields operation) = true ->
  extractVariables (op_fields operation) true
  = extractVariables (op_fields operation) false
  /\ compileVariables operation true = compileVariables operation false
  /\ compile operation true = compile operation false.
Proof.
  intros Hall.
  assert (Hextract : extractVariables (op_fields operation) true
                     = extractVariables (op_fields operation) false).
  { rewrite extractVariables_true. apply filter_all, forallb_forall.
    intros [k v] Hin. simpl.
    apply (extractVariables_in_collect _ false), collect_provenance in Hin.
    destruct Hin as (a & Hin & _).
    exact (visited_present _ _ Hall Hin). }
  assert (Hsig : compileVariables operation true
                 = compileVariables operation false).
  { unfold compileVariables. now rewrite Hextract. }
  split; [exact Hextract|]. split; [exact Hsig|].
  unfold compile. rewrite Hsig.
  rewrite (compileFieldSelection_prune false).
  now rewrite pruneAbsent_present.
Qed.

Lemma flag_is_irrelevant_when_every_variable_is_present_witness :
  let operation :=
    {| op_type := mutation;
       op_fields :=
         [("updatePost",
           Call [("id", ArgVar (newVariable "GadgetID!" None (JStr "7")));
                 ("post", ArgVar (newVariable "UpdatePostInput" None
                                    (JObj [("title", JStr "Hello")])))]
                (Some [("success", FBool true)]))];
       op_name := Some "updatePost";
       op_directives := None |} in
  compile operation true = compile operation false.
Proof.
  intros operation.
  exact (proj2 (proj2 (flag_is_irrelevant_when_every_variable_is_present
                         operation eq_refl))).
Defined.

(** ** The names the body refers to are declared *)

Lemma has_set_same {V : Type} (k : string) (v : V) (o : Obj.t V) :
  Obj.has k (Obj.set k v o) = true.
Proof. unfold Obj.has. now rewrite get_set_same. Qed.

Lemma has_assign_source {V : Type} (k : string) (target source : Obj.t V) :
  Obj.has k source = true -> Obj.has k (Obj.assign target source) = true.
Proof.
  unfold Obj.assign. revert target.
  induction source as [|[k0 v0] rest IH]; intros target; [discriminate|].
  unfold Obj.has. simpl. destruct (String.eqb k k0) eqn:E.
  - intros _. apply String.eqb_eq in E. subst k0.
    apply (has_assign_keeps k (Obj.set k v0 target) rest), has_set_same.
  - intros H. apply IH. exact H.
Qed.

Lemma has_ownEntries (k : string) (variables : Obj.t GqlVariable) :
  NoDup (Obj.keys variables) -> k <> protoKey ->
  Obj.has k (ownEntries variables) = Obj.has k variables.
Proof.
  intros Hnd Hne. unfold Obj.has. rewrite get_ownEntries by assumption.
  apply String.eqb_neq in Hne. now rewrite Hne.
Qed.








(** ** When a document has a signature *)

Lemma LeavesKey_fold {A : Type}
    (step : Obj.t GqlVariable -> A -> Obj.t GqlVariable)
    (occ : A -> list (string * GqlVariable)) (items : list A) :
  Forall (fun a => Persistence (fun vars => step vars a)) items ->
  Forall (fun a => LeavesKey (fun vars => step vars a) (occ a)) items ->
  LeavesKey (fun vars => fold_left step items vars) (flat_map occ items).
Proof.
  intros Hpers Hkey. revert Hpers.
  induction Hkey as [|a rest Ha _ IH]; intros Hpers variables o;
    simpl; [tauto|].
  inversion Hpers as [|? ? Hp Hpers']; subst.
  intros Hin Hne. apply in_app_or in Hin. destruct Hin as [Hin|Hin].
  - destruct (Ha variables o Hin Hne) as (k & Hk & Hhas).
    exists k. split; [exact Hk|].
    now apply (Persistence_fold step rest Hpers').
  - now apply (IH Hpers' (step variables a) o).
Qed.

Lemma extractArg_leavesKey entry :
  LeavesKey (fun vars => extractArg vars entry) (argVariable entry).
Proof.
  intros variables o Hin Hne. destruct entry as [a [v|j]];
    unfold argVariable in Hin; simpl in Hin; [|destruct Hin].
  destruct Hin as [<-|[]]. simpl in *.
  destruct (var_name v) as [explicit|].
  - exists explicit. split; [congruence | apply has_set_same].
  - exists (nextName variables a).
    split; [apply nextName_not_proto | apply has_set_same].
Qed.

Lemma extractEntry_leavesKey value :
  LeavesKey (fun vars => extractEntry vars value) (visitedIn value).
Proof.
  induction value as [b| | |args subselection _|fields IH]
    using FieldValue_nested_ind;
    try (intros variables o []).
  - simpl. apply LeavesKey_fold; apply Forall_forall; intros e _.
    + apply extractArg_persistence.
    + apply extractArg_leavesKey.
  - intros variables o Hin Hne. simpl. fold (collect fields).
    destruct (LeavesKey_fold
                (fun vars e => extractEntry vars (snd e))
                (fun e => visitedIn (snd e)) fields) with (3 := Hin) (4 := Hne)
                (variables := @nil (string * GqlVariable))
      as (k & Hk & Hhas).
    + apply Forall_forall. intros e _. apply extractEntry_writes.
    + exact IH.
    + exists k. split; [exact Hk|]. apply has_assign_source.
      rewrite has_ownEntries by (apply NoDup_keys_collect || exact Hk).
      exact Hhas.
Qed.

Lemma visited_leavesKey fields o :
  In o (visited fields) -> var_name (snd o) <> Some protoKey ->
  extractVariables fields false <> [].
Proof.
  intros Hin Hne.
  destruct (LeavesKey_fold
              (fun vars e => extractEntry vars (snd e))
              (fun e => visitedIn (snd e)) fields) with (3 := Hin) (4 := Hne)
              (variables := @nil (string * GqlVariable))
    as (k & Hk & Hhas).
  - apply Forall_forall. intros e _. apply extractEntry_writes.
  - apply Forall_forall. intros e _. apply extractEntry_leavesKey.
  - rewrite extractVariables_false. fold (collect fields) in Hhas.
    rewrite <- (has_ownEntries k) in Hhas
      by (apply NoDup_keys_collect || exact Hk).
    intros Hnil. rewrite Hnil in Hhas. discriminate.
Qed.

(** X6.  With the flag off, a document carries a variable signature
    exactly when the extraction visits at least one [Variable] that is
    not explicitly named [__proto__] (the assignment under that name
    replaces the prototype of the record and leaves no key): a selection
    whose field calls pass only literal arguments compiles to a document
    without signature, and one visited [Variable] with another name, or
    with none, is enough for a signature. *)
Theorem signature_iff_a_variable_takes_a_key (operation : BuilderOperation) :
  (compileVariables operation false = ""
   <-> Forall (fun o => var_name (snd o) = Some protoKey)
         (visited (op_fields operation)))
  /\ (visited (op_fields operation) = [] ->
      compileVariables operation false = "")
  /\ (forall o, In o (visited (op_fields operation)) ->
                var_name (snd o) <> Some protoKey ->
                compileVariables operation false <> "").
Proof.
  assert (Hsig : compileVariables operation false = ""
                 <-> extractVariables (op_fields operation) false = []).
  { rewrite compileVariables_declare.
    destruct (extractVariables (op_fields operation) false) as [|e rest];
      simpl; split; intros H; try reflexivity; discriminate. }
  assert (Hempty : Forall (fun o => var_name (snd o) = Some protoKey)
                     (visited (op_fields operation)) ->
                   extractVariables (op_fields operation) false = []).
  { intros Hall.
    destruct (extractVariables (op_fields operation) false) as [|[k v] vars]
      eqn:Hc; [reflexivity|]. exfalso.
    assert (Hin : In (k, v) (extractVariables (op_fields operation) false))
      by (rewrite Hc; now left).
    pose proof (extractVariables_not_proto _ _ _ _ Hin) as Hne.
    apply extractVariables_in_collect, collect_provenance in Hin.
    destruct Hin as (a & Hin & Hm).
    rewrite Forall_forall in Hall. specialize (Hall _ Hin). simpl in Hall.
    unfold mayTake in Hm. simpl in Hm. rewrite Hall in Hm.
    apply String.eqb_eq in Hm. congruence. }
  split; [|split].
  - rewrite Hsig. split; [|exact Hempty].
    intros Hnil. apply Forall_forall. intros o Hin.
    destruct (var_name (snd o)) as [explicit|] eqn:Hname.
    + destruct (string_dec explicit protoKey) as [->|Hne]; [reflexivity|].
      exfalso. apply (visited_leavesKey _ o Hin); [|exact Hnil].
      rewrite Hname. congruence.
    + exfalso. apply (visited_leavesKey _ o Hin); [|exact Hnil].
      rewrite Hname. discriminate.
  - intros Hv. apply Hsig, Hempty. rewrite Hv. constructor.
  - intros o Hin Hne Hs. apply Hsig in Hs.
    exact (visited_leavesKey _ o Hin Hne Hs).
Qed.

Lemma signature_iff_a_variable_takes_a_key_witness :
  let hidden := newVariable "ID" (Some "__proto__") (JStr "1") in
  let operation :=
    {| op_type := query;
       op_fields := [("user", Call [("id", ArgVar hidden)] None)];
       op_name := None;
       op_directives := None |} in
  visited (op_fields operation) = [("id", hidden)]
  /\ compileVariables operation false = ""
  /\ compileFieldSelection (op_fields operation) false
     = Return ["  user(id: $__proto__)"].
Proof.
  intros hidden operation. split; [reflexivity|]. split; [|reflexivity].
  apply (proj2 (proj1 (signature_iff_a_variable_takes_a_key operation))).
  constructor; [reflexivity | constructor].
Defined.

(** X18.  The signature declares nothing that is not in the selection:
    whatever the flag, every entry of the extraction holds a [Variable]
    that the extraction visited as the value of some argument, under the
    explicit name of that [Variable] or, when it has none, under a name
    that starts with the name of the argument. *)
Theorem declared_variables_are_visited
    (fields : FieldSelection) (only : bool) :
  Forall (fun e =>
            exists argument,
              In (argument, snd e) (visited fields)
              /\ match var_name (snd e) with
                 | Some explicit => fst e = explicit
                 | None => String.prefix argument (fst e) = true
                 end)
    (extractVariables fields only).
Proof.
  apply Forall_forall. intros [k v] Hin. simpl.
  apply extractVariables_in_collect, collect_provenance in Hin.
  destruct Hin as (argument & Hin & Hm). exists argument.
  split; [exact Hin|]. unfold mayTake in Hm. simpl in Hm.
  destruct (var_name v) as [explicit|]; [|exact Hm].
  symmetry. now apply String.eqb_eq.
Qed.

(** ** How compiled selections compose *)

Lemma compileFieldSelection_indented fields only lines :
  compileFieldSelection fields only = Return lines ->
  exists raw, lines = map (fun line => "  " ++ line) raw.
Proof.
  rewrite compileFieldSelection_unfold.
  destruct (flatMapExc _ fields) as [cells|e]; simpl; [|discriminate].
  intros [= <-]. now exists (keepTruthy cells).
Qed.

Lemma flatMapExc_single {A B : Type} (f : A -> Exc (list B)) (a : A) :
  flatMapExc f [a] = f a.
Proof. simpl. destruct (f a); simpl; [now rewrite app_nil_r | reflexivity]. Qed.

Lemma indentLines_block (head : string) (lines : list string) :
  (exists raw, lines = map (fun line => "  " ++ line) raw) ->
  indentLines (Some (head ++ " {") :: List.app (map Some lines) [Some "}"])
  = ("  " ++ head ++ " {")
      :: List.app (map (fun line => "  " ++ line) lines) ["  }"].
Proof.
  intros [raw ->]. unfold indentLines. cbn [keepTruthy].
  rewrite append_brace_nonempty, keepTruthy_app, keepTruthy_indented.
  cbn [keepTruthy String.eqb map]. now rewrite map_app.
Qed.

(** X7.  Compiled selections compose.  The lines of a selection are the
    lines of its first entries followed by the lines of the others; a
    nested selection, and a field call with a sub-selection, compile to
    an opening line, the lines of what is nested, each with one more unit
    of indentation, and a closing brace; a failure of a part is the
    failure of the whole; and every line of a compiled selection starts
    with one unit of indentation. *)
Theorem compiled_selections_compose
    (only : bool) (first others sub : FieldSelection) (field : string)
    (args : list (string * ArgValue)) :
  compileFieldSelection (first ++ others)%list only
  = (a <- compileFieldSelection first only ;;
     b <- compileFieldSelection others only ;;
     Return (List.app a b))
  /\ compileFieldSelection [(field, FSelection sub)] only
     = (lines <- compileFieldSelection sub only ;;
        Return (("  " ++ field ++ " {")
                  :: List.app (map (fun line => "  " ++ line) lines) ["  }"]))
  /\ compileFieldSelection [(field, FCall args (Some sub))] only
     = (lines <- compileFieldSelection sub only ;;
        Return (("  " ++ field ++ renderArgs only args ++ " {")
                  :: List.app (map (fun line => "  " ++ line) lines) ["  }"]))
  /\ match compileFieldSelection first only with
     | Return lines =>
         Forall (fun line => String.prefix "  " line = true) lines
     | Throw e => e = nullToObject
     end.
Proof.
  split; [|split; [|split]].
  - rewrite !compileFieldSelection_unfold, flatMapExc_app.
    destruct (flatMapExc _ first) as [x|e]; simpl; auto.
    destruct (flatMapExc _ others) as [y|e]; simpl; auto.
    unfold indentLines. now rewrite keepTruthy_app, map_app.
  - rewrite (compileFieldSelection_unfold [(field, FSelection sub)]).
    rewrite flatMapExc_single. cbn [fst snd].
    rewrite compileEntry_selection.
    destruct (compileFieldSelection sub only) as [lines|e] eqn:Hsub;
      cbn [bindExc]; [|reflexivity].
    f_equal. apply indentLines_block.
    now apply (compileFieldSelection_indented sub only).
  - rewrite (compileFieldSelection_unfold [(field, FCall args (Some sub))]).
    rewrite flatMapExc_single. cbn [fst snd].
    rewrite compileEntry_call.
    destruct (compileFieldSelection sub only) as [lines|e] eqn:Hsub;
      cbn [bindExc]; [|reflexivity].
    f_equal. rewrite <- !append_assoc.
    rewrite (indentLines_block (field ++ renderArgs only args) lines).
    + now rewrite !append_assoc.
    + now apply (compileFieldSelection_indented sub only).
  - destruct (compileFieldSelection first only) as [lines|e] eqn:Hc.
    + apply compileFieldSelection_indented in Hc. destruct Hc as [raw ->].
      apply Forall_forall. intros line Hin. apply in_map_iff in Hin.
      destruct Hin as [l [<- _]]. apply prefix_append.
    + apply compileFieldSelection_throws in Hc. destruct Hc as [entry [_ Hc]].
      now apply compileEntry_throws in Hc.
Qed.

(* ================================================================== *)
(** * Further properties of the [useAction] hook *)

Module UseActionMore.
Import UseAction Samples UseActionFacts.

(** ** The nested calling convention *)

Lemma rejects_expected_keys action vars :
  Forall (fun k => k = modelApiIdentifier action
                   \/ isParamOnly action k = true) (Obj.keys vars) ->
  rejects action vars = false.
Proof.
  intros Hall. unfold rejects.
  destruct (hasAmbiguousIdentifier action); [|reflexivity]. cbn [andb].
  apply not_true_is_false. intros Hex. apply existsb_exists in Hex.
  destruct Hex as [k [Hin Hk]]. rewrite Forall_forall in Hall.
  unfold unexpectedKey in Hk. apply andb_true_iff in Hk.
  destruct Hk as [Hp Hm]. apply negb_true_iff in Hp, Hm.
  destruct (Hall k Hin) as [->|Hparam].
  - now rewrite String.eqb_refl in Hm.
  - congruence.
Qed.

(** X8.  Variables that follow the nested convention are always accepted
    and sent as they are: whatever the flags of the action, when the
    variables hold an object under the model identifier and every other
    top-level key is a declared param-only variable, the call is not
    rejected and dispatches exactly one operation, with the variables
    unchanged. *)
Theorem nested_variables_pass_through
    (env : Collaborators) (action : ActionFunction)
    (vars : Obj.t JSValue) (context : option OperationContext)
    (inner : JSValue) :
  Obj.get (modelApiIdentifier action) vars = Some inner ->
  isObject inner = true ->
  Forall (fun k => k = modelApiIdentifier action
                   \/ isParamOnly action k = true) (Obj.keys vars) ->
  rejects action vars = false
  /\ mapVariables action vars = Return vars
  /\ dispatched (runAction env action (Some vars) context)
     = [(vars, mutationContext env action context)]
  /\ returns (outcome (runAction env action (Some vars) context)) = true.
Proof.
  intros Hget Hobj Hkeys.
  assert (Hguard : rejects action vars = false)
    by now apply rejects_expected_keys.
  assert (Hmap : mapVariables action vars = Return vars).
  { unfold mapVariables, alreadyNested. rewrite Hget, Hobj.
    now destruct (acceptsModelInput action || hasCreateOrUpdateEffect action). }
  split; [exact Hguard|]. split; [exact Hmap|].
  unfold runAction. rewrite Hguard, Hmap. now split.
Qed.

Lemma nested_variables_pass_through_witness :
  let vars := [("post", JObj [("title", JStr "Hello")]); ("notify", JBool true)] in
  dispatched (runAction sampleEnv (sampleAction false true) (Some vars) None)
  = [(vars, mutationContext sampleEnv (sampleAction false true) None)].
Proof.
  intros vars.
  refine (proj1 (proj2 (proj2
            (nested_variables_pass_through sampleEnv (sampleAction false true)
               vars None (JObj [("title", JStr "Hello")]) eq_refl eq_refl _)))).
  constructor; [now left|]. constructor; [now right|]. constructor.
Defined.

(** X19.  A call without variables, [null] or [undefined], is never
    rejected: it dispatches exactly one operation, whose variables are
    the model identifier bound to an empty object when the action accepts
    model input or has a create-or-update effect, and the empty object
    otherwise. *)
Theorem a_call_without_variables_is_dispatched
    (env : Collaborators) (action : ActionFunction)
    (context : option OperationContext) :
  let sent :=
    if acceptsModelInput action || hasCreateOrUpdateEffect action
    then [(modelApiIdentifier action, JObj [])]
    else [] in
  dispatched (runAction env action None context)
  = [(sent, mutationContext env action context)]
  /\ returns (outcome (runAction env action None context)) = true
  /\ runAction env action None context = runAction env action (Some []) context.
Proof.
  unfold runAction, rejects, mapVariables, alreadyNested.
  cbn [Obj.keys map existsb Obj.get fold_left].
  rewrite andb_false_r.
  destruct (acceptsModelInput action || hasCreateOrUpdateEffect action);
    now repeat split.
Qed.

(** ** When a call fails *)

Lemma mapVariables_returns action vars :
  NoDup (Obj.keys vars) ->
  keptAtTopLevel action (modelApiIdentifier action) = false ->
  mapVariables action vars
  = Return
      (if (acceptsModelInput action || hasCreateOrUpdateEffect action)
          && negb (alreadyNested action vars)
       then (modelApiIdentifier action,
             JObj (filter (fun e => negb (keptAtTopLevel action (fst e))) vars))
              :: filter (fun e => keptAtTopLevel action (fst e)) vars
       else vars).
Proof.
  intros Hnd Hmodel. unfold mapVariables.
  destruct (acceptsModelInput action || hasCreateOrUpdateEffect action);
    [|reflexivity].
  destruct (alreadyNested action vars); [reflexivity|]. cbn [andb negb].
  rewrite (wrap_fold action vars [] []); auto.
  apply Forall_forall. intros k _. simpl. tauto.
Qed.

Lemma processResult_fetching result action :
  state_fetching (processResult result action) = fetching result.
Proof.
  unfold processResult.
  destruct (truthy (data result)); [|reflexivity].
  destruct (truthy (get (data result) (dataPath action))); [|reflexivity].
  now destruct (reportsErrors (get (data result) (dataPath action))).
Qed.

(** X9.  For a descriptor whose model identifier is none of its top-level
    keys, a call fails only through the guard on the variables: when the
    guard rejects them the call ends with the invalid-arguments error and
    dispatches nothing, and otherwise it dispatches exactly one operation
    and returns a state that is no longer fetching. *)
Theorem a_call_fails_only_through_the_guard
    (env : Collaborators) (action : ActionFunction)
    (vars : Obj.t JSValue) (context : option OperationContext) :
  NoDup (Obj.keys vars) ->
  keptAtTopLevel action (modelApiIdentifier action) = false ->
  let run := runAction env action (Some vars) context in
  if rejects action vars
  then run = {| dispatched := [];
                outcome := Throw (invalidArguments action) |}
  else exists sent state,
         mapVariables action vars = Return sent
         /\ run = {| dispatched := [(sent, mutationContext env action context)];
                     outcome := Return state |}
         /\ state_fetching state = false.
Proof.
  intros Hnd Hmodel run. subst run. unfold runAction.
  destruct (rejects action vars); [reflexivity|].
  rewrite (mapVariables_returns action vars Hnd Hmodel).
  eexists. eexists. split; [reflexivity|]. split; [reflexivity|].
  apply processResult_fetching.
Qed.

Lemma a_call_fails_only_through_the_guard_witness :
  exists sent state,
    mapVariables (sampleAction false true) [("notify", JBool true)] = Return sent
    /\ runAction sampleEnv (sampleAction false true)
         (Some [("notify", JBool true)]) None
       = {| dispatched :=
              [(sent, mutationContext sampleEnv (sampleAction false true) None)];
            outcome := Return state |}
    /\ state_fetching state = false.
Proof.
  refine (a_call_fails_only_through_the_guard sampleEnv (sampleAction false true)
            [("notify", JBool true)] None _ eq_refl).
  repeat constructor; simpl; auto.
Defined.

(** ** The mapping loses nothing and is idempotent *)

Lemma filter_partition_permutation {A : Type} (p : A -> bool) (l : list A) :
  Permutation (filter (fun a => negb (p a)) l ++ filter p l) l.
Proof.
  induction l as [|a rest IH]; simpl; [constructor|].
  destruct (p a); simpl.
  - apply Permutation_sym, Permutation_cons_app, Permutation_sym, IH.
  - now constructor.
Qed.

(** X10.  Wrapping loses and invents nothing.  For an action that accepts
    model input or has a create-or-update effect, flat variables are sent
    as the model identifier bound to an object, followed by top-level
    entries, such that the entries of that object together with the
    top-level entries are exactly the entries the caller passed, the
    object holding those that are neither param-only nor the [id]
    variable and the top level the others. *)
Theorem wrapping_keeps_every_entry
    (action : ActionFunction) (vars : Obj.t JSValue) :
  acceptsModelInput action || hasCreateOrUpdateEffect action = true ->
  alreadyNested action vars = false ->
  NoDup (Obj.keys vars) ->
  keptAtTopLevel action (modelApiIdentifier action) = false ->
  exists nested top,
    mapVariables action vars
    = Return ((modelApiIdentifier action, JObj nested) :: top)
    /\ Permutation (nested ++ top) vars
    /\ Forall (fun e => keptAtTopLevel action (fst e) = false) nested
    /\ Forall (fun e => keptAtTopLevel action (fst e) = true) top
    /\ NoDup (modelApiIdentifier action :: Obj.keys top).
Proof.
  intros Hflag Hflat Hnd Hmodel.
  exists (filter (fun e => negb (keptAtTopLevel action (fst e))) vars),
         (filter (fun e => keptAtTopLevel action (fst e)) vars).
  split.
  - rewrite (mapVariables_returns action vars Hnd Hmodel), Hflag, Hflat.
    reflexivity.
  - split; [apply filter_partition_permutation|]. split; [|split].
    + apply Forall_forall. intros e He. apply filter_In in He.
      now apply negb_true_iff.
    + apply Forall_forall. intros e He. now apply filter_In in He.
    + constructor; [|now apply NoDup_keys_filter].
      intros Hin. unfold Obj.keys in Hin. apply in_map_iff in Hin.
      destruct Hin as [e [He Hf]]. apply filter_In in Hf.
      destruct Hf as [_ Hk]. rewrite He in Hk. congruence.
Qed.

Lemma wrapping_keeps_every_entry_witness :
  exists nested top,
    mapVariables (sampleAction false false)
      [("id", JStr "7"); ("title", JStr "Hello"); ("notify", JBool true)]
    = Return (("post", JObj nested) :: top)
    /\ Permutation (nested ++ top)
         [("id", JStr "7"); ("title", JStr "Hello"); ("notify", JBool true)].
Proof.
  destruct (wrapping_keeps_every_entry (sampleAction false false)
              [("id", JStr "7"); ("title", JStr "Hello"); ("notify", JBool true)]
              eq_refl eq_refl) as (nested & top & H1 & H2 & _).
  - repeat constructor; simpl; intuition discriminate.
  - reflexivity.
  - exists nested, top. split; [exact H1 | exact H2].
Defined.

(** X11.  The mapping is idempotent: what it returns for the variables of
    a caller it returns unchanged when given it again, so variables that
    were already mapped can be passed to the action a second time. *)
Theorem mapping_is_idempotent
    (action : ActionFunction) (vars sent : Obj.t JSValue) :
  NoDup (Obj.keys vars) ->
  keptAtTopLevel action (modelApiIdentifier action) = false ->
  mapVariables action vars = Return sent ->
  mapVariables action sent = Return sent.
Proof.
  intros Hnd Hmodel Hmap.
  rewrite (mapVariables_returns action vars Hnd Hmodel) in Hmap.
  injection Hmap as <-. unfold mapVariables.
  destruct (acceptsModelInput action || hasCreateOrUpdateEffect action);
    [|reflexivity].
  destruct (alreadyNested action vars) eqn:Hnested; cbn [andb negb].
  - now rewrite Hnested.
  - unfold alreadyNested. cbn [Obj.get]. now rewrite String.eqb_refl.
Qed.

Lemma mapping_is_idempotent_witness :
  let sent := [("post", JObj [("title", JStr "Hello")]); ("id", JStr "7")] in
  mapVariables (sampleAction false false)
    [("id", JStr "7"); ("title", JStr "Hello")] = Return sent
  /\ mapVariables (sampleAction false false) sent = Return sent.
Proof.
  intros sent. split; [reflexivity|].
  refine (mapping_is_idempotent (sampleAction false false)
            [("id", JStr "7"); ("title", JStr "Hello")] sent _ eq_refl eq_refl).
  repeat constructor; simpl; intuition discriminate.
Defined.

(** ** What [processResult] keeps *)

Lemma walk_truthy object path :
  path <> [] -> truthy (walk object path) = true -> truthy object = true.
Proof.
  destruct path as [|key rest]; [congruence|]. intros _. simpl.
  destruct object; simpl; try discriminate; try reflexivity;
    rewrite walk_undefined; discriminate.
Qed.

Lemma dataPath_nonempty action : dataPath action <> [].
Proof.
  unfold dataPath. destruct (namespace action) as [ns|]; [|discriminate].
  destruct (String.eqb ns ""); discriminate.
Qed.

Lemma get_truthy object action :
  truthy (get object (dataPath action)) = true -> truthy object = true.
Proof.
  pose proof (dataPath_nonempty action) as Hne. unfold get.
  destruct (dataPath action) as [|key rest] eqn:E; [congruence|].
  apply walk_truthy. discriminate.
Qed.

(** X12.  [processResult] neither invents data nor swallows an error.
    The flags [fetching] and [stale] are passed on.  The [data] is the
    raw result of an action with a return type, or the hydrated record of
    any other action, when the payload holds a truthy value under the
    path of the mutation result and that value reports no errors; it is
    [null] in every other case.  So [data] is other than [null] exactly
    when, in addition, the result of an action with a return type is not
    itself [null].  An error of the transport always leaves a structured
    error, and so do errors reported by the mutation result; without a
    payload the error is the wrapped error of the transport. *)
Theorem processResult_keeps_data_and_errors
    (result : MutationState) (action : ActionFunction) :
  let processed := processResult result action in
  let mutationData := get (data result) (dataPath action) in
  state_fetching processed = fetching result
  /\ state_stale processed = stale result
  /\ state_data processed
     = (if truthy mutationData && negb (reportsErrors mutationData)
        then if hasReturnType action
             then DataValue (prop mutationData "result")
             else DataRecord
                    (hydrateRecord result
                       (prop mutationData (modelSelectionField action)))
        else DataNull)
  /\ (dataIsNull (state_data processed) = false
      <-> truthy mutationData = true /\ reportsErrors mutationData = false
          /\ (hasReturnType action = true ->
              prop mutationData "result" <> JNull))
  /\ (state_error processed = None
      <-> error result = None
          /\ (truthy mutationData = true -> reportsErrors mutationData = false))
  /\ (truthy (data result) = false ->
      state_data processed = DataNull
      /\ state_error processed = forMaybeCombinedError (error result)).
Proof.
  intros processed mutationData.
  assert (Hdata : state_data processed
     = (if truthy mutationData && negb (reportsErrors mutationData)
        then if hasReturnType action
             then DataValue (prop mutationData "result")
             else DataRecord
                    (hydrateRecord result
                       (prop mutationData (modelSelectionField action)))
        else DataNull)).
  { subst processed mutationData. unfold processResult.
    pose proof (get_truthy (data result) action) as Htruthy.
    destruct (truthy (get (data result) (dataPath action))) eqn:Hmd.
    - rewrite (Htruthy eq_refl).
      destruct (reportsErrors (get (data result) (dataPath action)));
        reflexivity.
    - destruct (truthy (data result)); reflexivity. }
  assert (Herror : state_error processed
     = (if truthy mutationData && reportsErrors mutationData
        then Some (forErrorsResponse (prop mutationData "errors")
                     (responseOf (forMaybeCombinedError (error result))))
        else forMaybeCombinedError (error result))).
  { subst processed mutationData. unfold processResult.
    pose proof (get_truthy (data result) action) as Htruthy.
    destruct (truthy (get (data result) (dataPath action))) eqn:Hmd.
    - rewrite (Htruthy eq_refl).
      destruct (reportsErrors (get (data result) (dataPath action)));
        reflexivity.
    - destruct (truthy (data result)); reflexivity. }
  assert (Hflags : state_fetching processed = fetching result
                   /\ state_stale processed = stale result).
  { subst processed. unfold processResult.
    destruct (truthy (data result));
      [destruct (truthy (get (data result) (dataPath action)));
       [destruct (reportsErrors (get (data result) (dataPath action)))|]|];
      split; reflexivity. }
  split; [apply Hflags|]. split; [apply Hflags|]. split; [exact Hdata|].
  split; [|split].
  - rewrite Hdata.
    destruct (truthy mutationData), (reportsErrors mutationData); cbn.
    + split; [discriminate | intros (_ & H & _); discriminate].
    + destruct (hasReturnType action); cbn.
      * destruct (prop mutationData "result") eqn:Hres; cbn;
          split; try discriminate; try (intros _; repeat split; discriminate).
        intros (_ & _ & H). now specialize (H eq_refl).
      * split; [|reflexivity]. intros _. repeat split. discriminate.
    + split; [discriminate | intros (H & _); discriminate].
    + split; [discriminate | intros (H & _); discriminate].
  - rewrite Herror.
    destruct (truthy mutationData), (reportsErrors mutationData); cbn.
    + split; [discriminate|]. intros [_ H]. now specialize (H eq_refl).
    + destruct (error result); cbn; split; try discriminate; auto.
      intros [H _]. discriminate.
    + destruct (error result); cbn; split; try discriminate; auto.
      intros [H _]. discriminate.
    + destruct (error result); cbn; split; try discriminate; auto.
      intros [H _]. discriminate.
  - intros Hnone. subst processed. unfold processResult. rewrite Hnone.
    split; reflexivity.
Qed.

End UseActionMore.

(* ================================================================== *)
(** * The mock urql client *)

Module MockUrqlClientFacts.
Import MockUrqlClient.

(** ** [graphqlDocumentName] *)

Lemma find_none_forallb {A : Type} (p : A -> bool) (l : list A) :
  forallb (fun a => negb (p a)) l = true -> find p l = None.
Proof.
  induction l as [|a rest IH]; simpl; [reflexivity|].
  destruct (p a); simpl; [discriminate | exact IH].
Qed.

Lemma find_app {A : Type} (p : A -> bool) (l1 l2 : list A) :
  find p (l1 ++ l2)
  = match find p l1 with
    | Some a => Some a
    | None => find p l2
    end.
Proof.
  induction l1 as [|a rest IH]; simpl; [reflexivity|].
  now destruct (p a).
Qed.

Lemma forallb_rev {A : Type} (p : A -> bool) (l : list A) :
  forallb p (rev l) = forallb p l.
Proof.
  induction l as [|a rest IH]; simpl; [reflexivity|].
  rewrite forallb_app, IH. simpl. rewrite andb_true_r. apply andb_comm.
Qed.

Lemma findLast_last_match {A : Type} (p : A -> bool)
    (before after : list A) (a : A) :
  p a = true ->
  forallb (fun x => negb (p x)) after = true ->
  findLast p (before ++ a :: after) = Some a.
Proof.
  intros Ha Hafter. unfold findLast. rewrite rev_app_distr. simpl.
  rewrite <- app_assoc, find_app.
  rewrite find_none_forallb by now rewrite forallb_rev.
  simpl. now rewrite Ha.
Qed.

(** X13.  The key of a document is read off its last operation
    definition alone, whatever stands before it and whatever fragment or
    other definitions follow it: the name of the operation when it has
    one, and otherwise the name of the first selection that is a field;
    an unnamed operation without a field among its selections makes the
    function throw, and a document without operation definition has no
    name. *)
Theorem graphqlDocumentName_reads_the_last_operation
    (before after : DocumentNode) :
  forallb (fun d => negb (isOperationDefinition d)) after = true ->
  (forall name selections,
      graphqlDocumentName
        (before ++ OperationDefinition (Some name) selections :: after)%list
      = Return (Some name))
  /\ (forall skipped name rest,
        forallb (fun s => negb (isField s)) skipped = true ->
        graphqlDocumentName
          (before ++ OperationDefinition None
                       (skipped ++ Field name :: rest)%list
                  :: after)%list
        = Return (Some name))
  /\ (forall selections,
        forallb (fun s => negb (isField s)) selections = true ->
        graphqlDocumentName
          (before ++ OperationDefinition None selections :: after)%list
        = Throw (TypeError "Cannot read properties of undefined"))
  /\ (forallb (fun d => negb (isOperationDefinition d)) before = true ->
      graphqlDocumentName (before ++ after)%list = Return None).
Proof.
  intros Hafter. split; [|split; [|split]].
  - intros name selections. unfold graphqlDocumentName.
    now rewrite findLast_last_match.
  - intros skipped name rest Hskipped. unfold graphqlDocumentName.
    rewrite findLast_last_match by auto.
    rewrite find_app, (find_none_forallb _ _ Hskipped). reflexivity.
  - intros selections Hnone. unfold graphqlDocumentName.
    rewrite findLast_last_match by auto.
    now rewrite (find_none_forallb _ _ Hnone).
  - intros Hbefore. unfold graphqlDocumentName, findLast.
    rewrite find_none_forallb; [reflexivity|].
    now rewrite forallb_rev, forallb_app, Hbefore, Hafter.
Qed.

Lemma graphqlDocumentName_reads_the_last_operation_witness :
  graphqlDocumentName
    [OperationDefinition (Some "first") [Field "a"];
     OperationDefinition None [FragmentSpread "PostFields"; Field "posts"];
     FragmentDefinition "PostFields" [Field "id"]]
  = Return (Some "posts").
Proof.
  exact (proj1 (proj2
           (graphqlDocumentName_reads_the_last_operation
              [OperationDefinition (Some "first") [Field "a"]]
              [FragmentDefinition "PostFields" [Field "id"]] eq_refl))
           [FragmentSpread "PostFields"] "posts" [] eq_refl).
Defined.

(** ** The registry of subjects *)

Lemma nth_error_updateSubject_same id change made subject :
  nth_error made id = Some subject ->
  nth_error (updateSubject id change made) id = Some (change subject).
Proof.
  revert id. induction made as [|s rest IH]; intros [|id]; simpl;
    try discriminate.
  - now intros [= ->].
  - apply IH.
Qed.

Lemma nth_error_updateSubject_other id id' change made :
  id' <> id ->
  nth_error (updateSubject id change made) id' = nth_error made id'.
Proof.
  revert id id'. induction made as [|s rest IH]; intros [|id] [|id'] Hne;
    simpl; auto; try congruence.
Qed.

Lemma registry_subject fn key id :
  registryOk fn -> Obj.get key (subjects fn) = Some id ->
  exists subject, nth_error (heap fn) id = Some subject /\ ended subject = false.
Proof.
  intros (_ & _ & Hlive) Hget. apply ObjFacts.get_in in Hget.
  rewrite Forall_forall in Hlive. exact (Hlive _ Hget).
Qed.


Lemma registryOk_makes_subject fn key :
  registryOk fn -> Obj.get key (subjects fn) = None ->
  registryOk {| subjects := Obj.set key (List.length (heap fn)) (subjects fn);
                heap := (heap fn ++ [makeSubject])%list;
                listeners := listeners fn |}.
Proof.
  intros (Hkeys & Hids & Hlive) Hget. unfold registryOk. cbn [subjects heap].
  assert (Hfresh : Obj.set key (List.length (heap fn)) (subjects fn)
                   = (subjects fn ++ [(key, List.length (heap fn))])%list).
  { apply ObjFacts.set_fresh. unfold Obj.has. now rewrite Hget. }
  split; [now apply ObjFacts.NoDup_keys_set|]. rewrite Hfresh. split.
  - rewrite map_app. simpl. apply NoDup_app; auto.
    + repeat constructor. simpl. tauto.
    + intros id Hin [<-|[]]. apply in_map_iff in Hin.
      destruct Hin as [e [He Hin]]. rewrite Forall_forall in Hlive.
      destruct (Hlive e Hin) as (subject & Hnth & _).
      assert (nth_error (heap fn) (snd e) <> None) by congruence.
      apply nth_error_Some in H. lia.
  - apply Forall_app. split.
    + eapply Forall_impl; [|exact Hlive].
      intros e (subject & Hnth & Hended). exists subject. split; [|exact Hended].
      rewrite nth_error_app1; [exact Hnth|].
      apply nth_error_Some. congruence.
    + constructor; [|constructor]. exists makeSubject. simpl.
      rewrite nth_error_app2 by lia. now rewrite Nat.sub_diag.
Qed.

Lemma execute_state assertions request fetchOptions fn :
  registryOk fn -> registryOk (fst (execute assertions request fetchOptions fn)).
Proof.
  intros Hok. unfold execute.
  destruct (graphqlDocumentName (request_query request)) as [name|e];
    [|exact Hok].
  set (key := orElse name "unknown").
  set (fn1 := match Obj.get key (subjects fn) with
              | Some _ => fn
              | None => _
              end).
  assert (Hok1 : registryOk fn1).
  { unfold fn1. destruct (Obj.get key (subjects fn)) eqn:Hget; [exact Hok|].
    now apply registryOk_makes_subject. }
  set (fn2 := match fetchOptions with
              | Some (FetchOptionsObject (Some signal)) => _
              | _ => fn1
              end).
  assert (Hok2 : registryOk fn2).
  { unfold fn2. destruct fetchOptions as [[|[signal|]]|]; exact Hok1. }
  destruct (match assertions with
            | Some check => check request
            | None => Return tt
            end); [|exact Hok2].
  now destruct (Obj.get key (subjects fn2)).
Qed.




(** ** Pushing a response *)

Lemma get_delete_gone {V : Type} (k : string) (o : Obj.t V) :
  NoDup (Obj.keys o) -> Obj.get k (Obj.delete k o) = None.
Proof.
  intros Hnd. rewrite (delete_as_filter k o Hnd).
  rewrite get_filter by assumption.
  destruct (Obj.get k o); [|reflexivity]. simpl.
  now rewrite String.eqb_refl.
Qed.

Lemma get_delete_kept {V : Type} (k other : string) (o : Obj.t V) :
  NoDup (Obj.keys o) -> other <> k ->
  Obj.get other (Obj.delete k o) = Obj.get other o.
Proof.
  intros Hnd Hne. rewrite (delete_as_filter k o Hnd).
  rewrite get_filter by assumption.
  destruct (Obj.get other o); [|reflexivity]. simpl.
  assert (String.eqb k other = false) as ->
    by (apply String.eqb_neq; congruence).
  reflexivity.
Qed.

Lemma pushResponse_open_key fn key id response :
  registryOk fn ->
  Obj.get key (subjects fn) = Some id ->
  let fn' := fst (pushResponse key response fn) in
  snd (pushResponse key response fn) = Return tt
  /\ (exists subject,
         nth_error (heap fn) id = Some subject
         /\ nth_error (heap fn') id
            = Some {| received :=
                        (received subject ++ [Response response])%list;
                      ended := true |})
  /\ Obj.get key (subjects fn') = None
  /\ (forall other, other <> key ->
                    Obj.get other (subjects fn')
                    = Obj.get other (subjects fn))
  /\ (forall id', id' <> id ->
                  nth_error (heap fn') id' = nth_error (heap fn) id')
  /\ (forall again,
         pushResponse key again fn'
         = (fn', Throw (noSubjectStarted key fn'))).
Proof.
  intros Hok Hget. pose proof Hok as (Hkeys & _ & _).
  destruct (registry_subject fn key id Hok Hget) as (subject & Hnth & Hended).
  unfold pushResponse. rewrite Hget. cbn [fst snd subjects heap].
  assert (Hgone : Obj.get key (Obj.delete key (subjects fn)) = None)
    by now apply get_delete_gone.
  split; [reflexivity|]. split; [|split; [|split; [|split]]].
  - exists subject. split; [exact Hnth|].
    rewrite (nth_error_updateSubject_same _ _ _ _ Hnth).
    unfold complete, next. now rewrite Hended.
  - exact Hgone.
  - intros other Hne. now apply get_delete_kept.
  - intros id' Hne. now apply nth_error_updateSubject_other.
  - intros again. cbn [subjects]. now rewrite Hgone.
Qed.



(** ** Calls that share a subject *)

Lemma execute_with_key assertions request fetchOptions fn name :
  graphqlDocumentName (request_query request) = Return name ->
  let key := orElse name "unknown" in
  execute assertions request fetchOptions fn
  = match Obj.get key (subjects fn) with
    | Some id =>
        ({| subjects := subjects fn;
            heap := heap fn;
            listeners :=
              (listeners fn ++ addedListeners fetchOptions key)%list |},
         _ <- checked assertions request ;; Return id)
    | None =>
        ({| subjects := Obj.set key (List.length (heap fn)) (subjects fn);
            heap := (heap fn ++ [makeSubject])%list;
            listeners :=
              (listeners fn ++ addedListeners fetchOptions key)%list |},
         _ <- checked assertions request ;; Return (List.length (heap fn)))
    end.
Proof.
  intros Hname key. unfold execute. rewrite Hname. fold key.
  destruct fn as [subs made added]. cbn [subjects heap listeners].
  destruct (Obj.get key subs) as [id|] eqn:Hget;
    destruct fetchOptions as [[|[signal|]]|];
    cbn [addedListeners subjects heap listeners checked];
    rewrite ?app_nil_r;
    destruct assertions as [check|]; cbn [checked bindExc];
    try destruct (check request) as [[]|e]; cbn [bindExc];
    rewrite ?Hget, ?ObjFacts.get_set_same; reflexivity.
Qed.

(** X16.  Calls whose documents have the same name share one subject
    until a response is pushed, whatever assertions and fetch options
    they come with.  The first call leaves a subject under the key, the
    name of the document or [unknown] when it has none.  A second call
    leaves the record and the subjects as they are, adds at most its
    abort listener, and is handed the subject of the first call, unless
    its assertions throw: then it throws what they throw.  Once a
    response is pushed for the key, the next call with that name opens a
    new subject, which has received nothing, and the old one stays
    ended.  (The record is read by key: the statement leaves out the
    names under which it would inherit from [Object.prototype].) *)
Theorem calls_with_one_name_share_a_subject
    (fn : MockOperationFn)
    (assertions1 assertions2 assertions3
       : option (GraphQLRequest -> Exc unit))
    (request1 request2 request3 : GraphQLRequest)
    (options1 options2 options3 : option FetchOptions)
    (name : option string) (response : JSValue) :
  registryOk fn ->
  graphqlDocumentName (request_query request1) = Return name ->
  graphqlDocumentName (request_query request2) = Return name ->
  graphqlDocumentName (request_query request3) = Return name ->
  ~ In (orElse name "unknown") objectPrototypeNames ->
  let key := orElse name "unknown" in
  let run1 := execute assertions1 request1 options1 fn in
  let fn1 := fst run1 in
  let run2 := execute assertions2 request2 options2 fn1 in
  let fn2 := fst run2 in
  let fn3 := fst (pushResponse key response fn2) in
  let run4 := execute assertions3 request3 options3 fn3 in
  let fn4 := fst run4 in
  exists id id',
    Obj.get key (subjects fn1) = Some id
    /\ snd run1 = (_ <- checked assertions1 request1 ;; Return id)
    /\ subjects fn2 = subjects fn1
    /\ heap fn2 = heap fn1
    /\ listeners fn2 = (listeners fn1 ++ addedListeners options2 key)%list
    /\ snd run2 = (_ <- checked assertions2 request2 ;; Return id)
    /\ Obj.get key (subjects fn4) = Some id'
    /\ snd run4 = (_ <- checked assertions3 request3 ;; Return id')
    /\ id' <> id
    /\ nth_error (heap fn4) id' = Some makeSubject
    /\ nth_error (heap fn4) id = nth_error (heap fn3) id
    /\ exists old, nth_error (heap fn3) id = Some old /\ ended old = true.
Proof.
  intros Hok Hname1 Hname2 Hname3 _ key run1 fn1 run2 fn2 fn3 run4 fn4.
  assert (Hok1 : registryOk fn1) by now apply execute_state.
  assert (Hok2 : registryOk fn2) by now apply execute_state.
  assert (Hfirst : exists id,
            Obj.get key (subjects fn1) = Some id
            /\ snd run1 = (_ <- checked assertions1 request1 ;; Return id)).
  { unfold fn1, run1.
    rewrite (execute_with_key assertions1 request1 options1 fn name Hname1).
    fold key. destruct (Obj.get key (subjects fn)) as [id|] eqn:Hget.
    - exists id. cbn [fst snd subjects]. now split.
    - eexists. cbn [fst snd subjects]. split; [|reflexivity].
      apply ObjFacts.get_set_same. }
  destruct Hfirst as (id & Hget1 & Hrun1).
  assert (Hrun2 : run2
            = ({| subjects := subjects fn1;
                  heap := heap fn1;
                  listeners :=
                    (listeners fn1 ++ addedListeners options2 key)%list |},
               _ <- checked assertions2 request2 ;; Return id)).
  { unfold run2.
    rewrite (execute_with_key assertions2 request2 options2 fn1 name Hname2).
    fold key. now rewrite Hget1. }
  assert (Hget2 : Obj.get key (subjects fn2) = Some id).
  { unfold fn2. rewrite Hrun2. exact Hget1. }
  pose proof (pushResponse_open_key fn2 key id response Hok2 Hget2) as Hpush.
  fold fn3 in Hpush.
  destruct Hpush as (_ & (subject & Hnth & Hnth3) & Hgone & _ & _ & _).
  assert (Hlen : id < List.length (heap fn3)).
  { apply nth_error_Some. congruence. }
  assert (Hrun4 : run4
            = ({| subjects := Obj.set key (List.length (heap fn3)) (subjects fn3);
                  heap := (heap fn3 ++ [makeSubject])%list;
                  listeners :=
                    (listeners fn3 ++ addedListeners options3 key)%list |},
               _ <- checked assertions3 request3 ;;
               Return (List.length (heap fn3)))).
  { unfold run4.
    rewrite (execute_with_key assertions3 request3 options3 fn3 name Hname3).
    fold key. now rewrite Hgone. }
  exists id, (List.length (heap fn3)).
  split; [exact Hget1|]. split; [exact Hrun1|].
  unfold fn2. rewrite Hrun2. cbn [fst snd subjects heap listeners].
  do 4 (split; [reflexivity|]).
  unfold fn4. rewrite Hrun4. cbn [fst snd subjects heap listeners].
  split; [apply ObjFacts.get_set_same|]. split; [reflexivity|].
  split; [lia|]. split; [|split].
  - rewrite nth_error_app2 by lia. now rewrite Nat.sub_diag.
  - now rewrite nth_error_app1.
  - eexists. split; [exact Hnth3 | reflexivity].
Qed.

Lemma calls_with_one_name_share_a_subject_witness :
  let request :=
    {| request_query := [OperationDefinition (Some "posts") []];
       request_variables := JUndefined |} in
  let refuse := fun _ : GraphQLRequest => @Throw unit (Error "unexpected") in
  let fn1 := fst (execute None request None newMockOperationFn) in
  let run2 :=
    execute (Some refuse) request (Some (FetchOptionsObject (Some 7))) fn1 in
  Obj.get "posts" (subjects fn1) = Some 0
  /\ subjects (fst run2) = subjects fn1
  /\ heap (fst run2) = heap fn1
  /\ listeners (fst run2) = [(7, "posts")]
  /\ snd run2 = Throw (Error "unexpected").
Proof.
  intros request refuse fn1 run2.
  assert (Hok : registryOk newMockOperationFn)
    by (repeat split; constructor).
  assert (Hname : ~ In (orElse (Some "posts") "unknown") objectPrototypeNames).
  { cbn. intros H.
    repeat (destruct H as [H|H]; [discriminate H|]). exact H. }
  destruct (calls_with_one_name_share_a_subject newMockOperationFn
              None (Some refuse) None request request request
              None (Some (FetchOptionsObject (Some 7))) None
              (Some "posts") JNull Hok eq_refl eq_refl eq_refl Hname)
    as (id & id' & H1 & _ & H3 & H4 & H5 & H6 & _).
  cbn in H1. injection H1 as <-.
  split; [reflexivity|]. split; [exact H3|]. split; [exact H4|].
  split; [exact H5 | exact H6].
Defined.

(** ** The queue of the mock fetch function *)

Lemma pushFetchResponses_spec responses fn :
  pushFetchResponses responses fn
  = ({| requests := skipn (List.length responses) (requests fn);
        resolved := (resolved fn ++ combine (requests fn) responses)%list |},
     if Nat.leb (List.length responses) (List.length (requests fn))
     then Return tt
     else Throw noRequestStarted).
Proof.
  revert fn. induction responses as [|response rest IH]; intros fn.
  - simpl. rewrite combine_nil, app_nil_r. now destruct fn.
  - cbn [pushFetchResponses]. unfold pushFetchResponse.
    destruct (requests fn) as [|request pending] eqn:Hreq.
    + simpl. rewrite app_nil_r. destruct fn; simpl in *. now subst.
    + rewrite IH. cbn [requests resolved List.length skipn combine Nat.leb].
      now rewrite <- app_assoc.
Qed.

Lemma requests_after_calls calls fn :
  fold_left (fun f args => mockFetch args f) calls fn
  = {| requests := (requests fn ++ calls)%list; resolved := resolved fn |}.
Proof.
  revert fn. induction calls as [|args rest IH]; intros fn; simpl.
  - rewrite app_nil_r. now destruct fn.
  - rewrite IH. cbn [mockFetch requests resolved]. now rewrite <- app_assoc.
Qed.

(** X17.  The mock fetch function answers first come, first served.
    After a series of calls, a series of pushed responses resolves the
    calls in the order in which they were made, the first response the
    first call and so on, and leaves the later calls waiting; a response
    pushed when no call waits throws, and the responses after it are not
    pushed. *)
Theorem fetch_responses_resolve_calls_in_order
    (calls : list (list JSValue)) (responses : list JSValue) :
  pushFetchResponses responses
    (fold_left (fun f args => mockFetch args f) calls newMockFetchFn)
  = ({| requests := skipn (List.length responses) calls;
        resolved := combine calls responses |},
     if Nat.leb (List.length responses) (List.length calls)
     then Return tt
     else Throw noRequestStarted).
Proof.
  rewrite requests_after_calls, pushFetchResponses_spec. reflexivity.
Qed.

End MockUrqlClientFacts.
